(** * iDynamic: the SLURM engine-pool manager of [idynamic.py]

    A shallow embedding of the program: [QueueManager] (its registry of
    submitted job ids, the polling cycle, job submission, job killing and
    the interrupt handler of the infinite loop), the reading of the
    output of [sbatch], and the command line ([get_args], [check_args],
    [main]), followed by their properties.

    Python integers are unbounded: they are [Z].  [self.submitted_jobs] is
    a Python [set] of integers: a [gset Z]; iterating over it visits each
    member once, in an order that Python leaves to the history of the
    set: here an order that the world chooses.  The scheduler (pyslurm,
    the [sbatch] subprocess), the file system and the terminal (the
    interrupt) are oracles whose answers may depend on everything that
    happened before: a call into them may raise where the source lets it
    raise, and the interrupt may arrive during any call into them, where
    the program spends its time.  The loop of [infinite_poll] has no end
    of its own: it is observed for a number of turns. *)

From Stdlib Require Import ZArith Ascii String.
From stdpp Require Import base gmap sets list strings pretty sorting.

Local Open Scope Z_scope.
Set Warnings "-clear-no-such-hyp".

(** ** Module-level constants *)

Definition _DEFAULT_PROFILE : option string := None.
Definition _DEFAULT_PROFILE_DIR : option string := None.
Definition _DEFAULT_N_WANTED : Z := 10.
Definition _DEFAULT_MAX_N_QUEUED : Z := 20.

(** The double-quote character, used by the [echo] lines of the job
    script. *)
Definition dquote : string := String "034"%char EmptyString.

Definition _JOB_DESC : string :=
  "#!/usr/bin/env bash
#SBATCH --partition=short --qos=short
#SBATCH --time=4:00:00
#SBATCH --mem=17000
#SBATCH --mem-per-cpu=17000
#SBATCH -n 1
#SBATCH -c 1
#SBATCH -J dynamic
#SBATCH -o dynamic.engine-%J.out
#SBATCH --auks=yes

hostname=`uname -n`

echo " +:+ dquote +:+ "I AM: $hostname" +:+ dquote +:+ "
echo " +:+ dquote +:+ dquote +:+ "
echo " +:+ dquote +:+ "NODE LIST: $SLURM_JOB_NODELIST" +:+ dquote +:+ "
echo " +:+ dquote +:+ "AVAILABLE CORES: $SLURM_JOB_CPUS_PER_NODE" +:+ dquote +:+ "
".

Definition _JOB_COMMAND : string :=
  "mpiexec -n $SLURM_JOB_CPUS_PER_NODE ipengine".

(** [_SUBMIT_COMMAND % filename] *)
Definition _SUBMIT_COMMAND (filename : string) : string :=
  "sbatch " +:+ filename.

(** ** [class JobState] *)

Module JobState.
Definition RUNNING : string := "RUNNING".
Definition SUSPENDED : string := "SUSPENDED".
Definition COMPLETED : string := "COMPLETED".
Definition TIMEOUT : string := "TIMEOUT".
Definition COMPLETING : string := "COMPLETING".
Definition PENDING : string := "PENDING".
End JobState.

(** ** What the program does to the outside world

    Every call of [log] is recorded with the data it formats (the time
    stamp and the layout of the line are left out), every call into
    pyslurm, every file written and every [sbatch] subprocess, in the
    order they happen; so are the calls that raised, and the arrival of
    the interrupt. *)

Inductive LogLine : Type :=
  | LogBlank
  | LogCancelling (jobs : list Z)
  | LogExiting
  | LogCompleted (completed_ids : list Z)
  | LogMissing (missing_ids : list Z)
  | LogSubmit (n_running n_queued n_wanted n_submit : Z)
  | LogSubmitted (i n_submit job_id : Z)
  | LogSubmissionFailed (i n_submit : Z)
  | LogWait (n_running n_queued n_wanted max_n_queued : Z)
  | LogStatus (n_running n_queued n_wanted : Z)
  | LogUnknownState (job_state : string) (job_id : Z).

(** [EvQuery]: [pyslurm.job()] returned the job table.
    [EvKill job_id raised]: [pyslurm.slurm_kill_job] was called for
    [job_id], and raised or not.
    [EvWriteFile filename description]: the job file was written.
    [EvSbatch slurm_command job_id]: [slurm_submit] ran the command and
    returned [job_id].
    [EvSleep interval interrupted]: [time.sleep(interval)] was called,
    and cut short by the interrupt or not.
    [EvSigint]: the interrupt arrived, during the call that is under way.
    [EvWriteFailed filename]: the job file could not be written.
    [EvQueryFailed]: [pyslurm.job()] or [find_id] raised. *)
Inductive Event : Type :=
  | EvLog (line : LogLine)
  | EvQuery
  | EvKill (job_id : Z) (raised : bool)
  | EvWriteFile (filename description : string)
  | EvSbatch (slurm_command : string) (job_id : Z)
  | EvSleep (interval : Z) (interrupted : bool)
  | EvSigint
  | EvWriteFailed (filename : string)
  | EvQueryFailed.

(** The calls into the outside world, where the program spends its time
    and during which the interrupt can arrive: [pyslurm.job()],
    [pyslurm.slurm_kill_job], the writing of the job file, the [sbatch]
    subprocess and [time.sleep]. *)
Inductive Blocking : Type :=
  | InQuery
  | InKill (job_id : Z)
  | InWrite
  | InSbatch
  | InSleep.

(** The scheduler, the operating system and the user at the terminal, as
    seen by the manager.  Each answer is a function of the history so
    far. *)
Record World : Type := {
  (** the scheduler's job table as [pyslurm.job()] fetches it, read by
      [find_id(job_id)]: [None] is the empty record (no such job),
      [Some s] a record whose ['job_state'] is [s] *)
  job_table : list Event -> Z -> option string;
  (** does [pyslurm.slurm_kill_job(job_id, Signal = 9, BatchFlag = 0)]
      raise? *)
  pyslurm_kill_raises : list Event -> Z -> bool;
  (** the [try] block of [slurm_submit]: [Some n] when the last word of the
      first line of sbatch's output parses as the integer [n], [None] when
      anything in the block raises *)
  sbatch_output : list Event -> string -> option Z;
  (** [os.getpgid(0)] *)
  os_getpgid : Z;
  (** does [pyslurm.job()] raise? *)
  pyslurm_job_raises : list Event -> bool;
  (** does [find_id(job_id)], or the reading of ['job_state'] in the
      record it returns, raise?  (asked of the table fetched at this
      history) *)
  find_id_raises : list Event -> Z -> bool;
  (** do [open], [write] or [close] raise for the file of this name? *)
  write_raises : list Event -> string -> bool;
  (** does the interrupt (SIGINT) arrive during this call, made at this
      history?  Python then raises [KeyboardInterrupt] inside the
      call. *)
  sigint : list Event -> Blocking -> bool;
  (** the place of a member in the iteration over a set, at this
      history: members are visited by increasing rank *)
  set_rank : list Event -> Z -> Z
}.

(** ** The manager object and the state of a run *)

Record Manager : Type := {
  profile : option string;
  profile_dir : option string;
  n_wanted : Z;
  max_n_queued : Z;
  verbose : Z;
  pid : Z;
  submitted_jobs : gset Z
}.

Record State : Type := {
  self : Manager;
  trace : list Event
}.

Definition with_jobs (jobs : gset Z) (m : Manager) : Manager :=
  {| profile := profile m; profile_dir := profile_dir m;
     n_wanted := n_wanted m; max_n_queued := max_n_queued m;
     verbose := verbose m; pid := pid m; submitted_jobs := jobs |}.

(** ** Exceptions and the monad of manager code *)

Inductive exn : Type :=
  | KeyError (key : Z)
  | KeyboardInterrupt
  | SlurmError
  | IOError
  | SubprocessError.

(** How a piece of code ends: it returns, it raises, or it is still
    running when the observation stops (the loop of [infinite_poll]). *)
Inductive outcome (A : Type) : Type :=
  | Return (a : A)
  | Raise (e : exn)
  | Unfinished.
Arguments Return {A} a.
Arguments Raise {A} e.
Arguments Unfinished {A}.

Definition M (A : Type) : Type := State -> outcome A * State.

Definition ret {A} (a : A) : M A := fun st => (Return a, st).

Definition raise {A} (e : exn) : M A := fun st => (Raise e, st).

Definition unfinished {A} : M A := fun st => (Unfinished, st).

Definition bind {A B} (m : M A) (k : A -> M B) : M B :=
  fun st =>
    match m st with
    | (Return a, st') => k a st'
    | (Raise e, st') => (Raise e, st')
    | (Unfinished, st') => (Unfinished, st')
    end.

Declare Scope py_scope.
Delimit Scope py_scope with py.
Notation "x <- m ;; k" := (bind m (fun x => k))
  (at level 100, m at next level, right associativity) : py_scope.
Notation "m ;; k" := (bind m (fun _ => k))
  (at level 100, right associativity) : py_scope.
Local Open Scope py_scope.

(** [try: body / except: handler], the handler taking the exceptions its
    clause names ([None]: not caught, the exception goes on). *)
Definition try_except {A} (body : M A) (handler : exn -> option (M A)) : M A :=
  fun st =>
    match body st with
    | (Return a, st') => (Return a, st')
    | (Raise e, st') =>
        match handler e with
        | Some h => h st'
        | None => (Raise e, st')
        end
    | (Unfinished, st') => (Unfinished, st')
    end.

(** [for x in xs: body] *)
Fixpoint for_ {A} (xs : list A) (body : A -> M unit) : M unit :=
  match xs with
  | [] => ret tt
  | x :: xs' => body x ;; for_ xs' body
  end.

(** A loop that carries local variables [acc]. *)
Fixpoint for_acc {A B} (xs : list A) (acc : B) (body : B -> A -> M B) : M B :=
  match xs with
  | [] => ret acc
  | x :: xs' => acc' <- body acc x ;; for_acc xs' acc' body
  end.

(** [if c: body] *)
Definition when (c : bool) (body : M unit) : M unit :=
  if c then body else ret tt.

Definition get_self : M Manager := fun st => (Return (self st), st).

Definition emit (e : Event) : M unit :=
  fun st => (Return tt, {| self := self st; trace := trace st ++ [e] |}).

Definition log (line : LogLine) : M unit := emit (EvLog line).

(** [range(n)] *)
Definition range (n : Z) : list Z := seqZ 0 n.

(** [len(xs)] *)
Definition len {A} (xs : list A) : Z := Z.of_nat (length xs).

(** ** Python's [set] *)

(** [s.add(x)] *)
Definition set_add (x : Z) : M unit :=
  fun st =>
    (Return tt,
     {| self := with_jobs ({[x]} ∪ submitted_jobs (self st)) (self st);
        trace := trace st |}).

(** [s.remove(x)]: raises [KeyError] when [x] is not a member. *)
Definition set_remove (x : Z) : M unit :=
  fun st =>
    if decide (x ∈ submitted_jobs (self st))
    then (Return tt,
          {| self := with_jobs (submitted_jobs (self st) ∖ {[x]}) (self st);
             trace := trace st |})
    else (Raise (KeyError x), st).

(** The members of a set in the order of an iteration: by increasing
    rank. *)
Definition iteration (rank : Z -> Z) (s : gset Z) : list Z :=
  @merge_sort Z (fun a b => rank a <= rank b)
    (fun a b => decide (rank a <= rank b)) (elements s).

(** ** [class QueueManager] *)

(** What [pyslurm.job()] returns: the records that [find_id] reads, and
    for which ids reading raises. *)
Record SlurmJobs : Type := {
  records : Z -> option string;
  unreadable : Z -> bool
}.

Section QueueManager.

Variable w : World.

(** [__init__] *)
Definition __init__ (profile profile_dir : option string)
    (n_wanted max_n_queued verbose : Z) : State :=
  {| self := {| profile := profile; profile_dir := profile_dir;
                n_wanted := n_wanted; max_n_queued := max_n_queued;
                verbose := verbose; pid := os_getpgid w;
                submitted_jobs := ∅ |};
     trace := [] |}.

(** A call into the outside world begins: does the interrupt arrive
    during it? *)
Definition signal (call : Blocking) : M bool :=
  fun st =>
    if sigint w (trace st) call
    then (Return true, {| self := self st; trace := trace st ++ [EvSigint] |})
    else (Return false, st).

(** [for x in self.submitted_jobs]: the members, in the order of this
    iteration. *)
Definition iterate : M (list Z) :=
  fun st =>
    (Return (iteration (set_rank w (trace st)) (submitted_jobs (self st))), st).

(** [pyslurm.job()]: the scheduler's job table at this moment. *)
Definition pyslurm_job : M SlurmJobs :=
  interrupted <- signal InQuery ;;
  if interrupted then
    emit EvQueryFailed ;; raise KeyboardInterrupt
  else
    fun st =>
      if pyslurm_job_raises w (trace st)
      then (Raise SlurmError,
            {| self := self st; trace := trace st ++ [EvQueryFailed] |})
      else (Return {| records := job_table w (trace st);
                      unreadable := find_id_raises w (trace st) |},
            {| self := self st; trace := trace st ++ [EvQuery] |}).

(** [slurm_jobs.find_id(job_id)], with the [info['job_state']] that
    follows it when the record is not empty. *)
Definition find_id (slurm_jobs : SlurmJobs) (job_id : Z) : M (option string) :=
  if unreadable slurm_jobs job_id
  then emit EvQueryFailed ;; raise SlurmError
  else ret (records slurm_jobs job_id).

(** [pyslurm.slurm_kill_job(job_id, Signal = 9, BatchFlag = 0)] *)
Definition slurm_kill_job (job_id : Z) : M unit :=
  interrupted <- signal (InKill job_id) ;;
  if interrupted then
    emit (EvKill job_id true) ;; raise KeyboardInterrupt
  else
    fun st =>
      let raised := pyslurm_kill_raises w (trace st) job_id in
      let st' := {| self := self st;
                    trace := trace st ++ [EvKill job_id raised] |} in
      if raised then (Raise SlurmError, st') else (Return tt, st').

(** [_write_job_description_file]: nothing here catches what [open],
    [write] and [close] raise. *)
Definition _write_job_description_file (job_desc filename : string) : M unit :=
  interrupted <- signal InWrite ;;
  if interrupted then
    emit (EvWriteFailed filename) ;; raise KeyboardInterrupt
  else
    fun st =>
      if write_raises w (trace st) filename
      then (Raise IOError,
            {| self := self st; trace := trace st ++ [EvWriteFailed filename] |})
      else (Return tt,
            {| self := self st;
               trace := trace st ++ [EvWriteFile filename job_desc] |}).

(** The [try] block of [slurm_submit]: run [sbatch], read its output. *)
Definition sbatch (slurm_command : string) : M Z :=
  interrupted <- signal InSbatch ;;
  if interrupted then raise KeyboardInterrupt
  else
    fun st =>
      match sbatch_output w (trace st) slurm_command with
      | Some n => (Return n, st)
      | None => (Raise SubprocessError, st)
      end.

(** [slurm_submit]: [job_id] starts as [-1] and is overwritten only when
    the whole [try] block succeeds; the bare [except] takes everything
    else. *)
Definition slurm_submit (filename : string) : M Z :=
  let slurm_command := _SUBMIT_COMMAND filename in
  let job_id := -1 in
  job_id <- try_except (sbatch slurm_command) (fun _ => Some (ret job_id)) ;;
  emit (EvSbatch slurm_command job_id) ;;
  ret job_id.

(** [submit_job] *)
Definition submit_job : M Z :=
  self <- get_self ;;
  let command := _JOB_COMMAND in
  let command :=
    match profile self with
    | Some p => command +:+ " --profile=" +:+ p
    | None => command
    end in
  let command :=
    match profile_dir self with
    | Some d => command +:+ " --profile-dir=" +:+ d
    | None => command
    end in
  let description := _JOB_DESC +:+ command +:+ String "010"%char EmptyString in
  let filename := "job_idynamic." +:+ pretty (pid self) in
  _write_job_description_file description filename ;;
  job_id <- slurm_submit filename ;;
  when (bool_decide (job_id > 0)) (set_add job_id) ;;
  ret job_id.

(** [kill_job]: the bare [except] takes whatever the kill raises. *)
Definition kill_job (job_id : Z) : M bool :=
  set_remove job_id ;;
  let result := true in
  result <- try_except (slurm_kill_job job_id ;; ret result)
                       (fun _ => Some (ret false)) ;;
  ret result.

(** The body of the loop of [get_submitted_job_info], on the four lists
    built so far. *)
Definition sort_job (slurm_jobs : SlurmJobs)
    (lists : list Z * list Z * list Z * list Z) (job_id : Z)
    : M (list Z * list Z * list Z * list Z) :=
  let '(running_ids, queued_ids, completed_ids, missing_ids) := lists in
  info <- find_id slurm_jobs job_id ;;
  match info with
  | None =>
      ret (running_ids, queued_ids, completed_ids, missing_ids ++ [job_id])
  | Some job_state =>
      if decide (job_state ∈ [JobState.RUNNING; JobState.SUSPENDED]) then
        ret (running_ids ++ [job_id], queued_ids, completed_ids, missing_ids)
      else if decide (job_state = JobState.PENDING) then
        ret (running_ids, queued_ids ++ [job_id], completed_ids, missing_ids)
      else if decide (job_state ∈ [JobState.COMPLETED; JobState.COMPLETING;
                                   JobState.TIMEOUT]) then
        ret (running_ids, queued_ids, completed_ids ++ [job_id], missing_ids)
      else
        log (LogUnknownState job_state job_id) ;;
        ret (running_ids, queued_ids, completed_ids, missing_ids)
  end.

(** [get_submitted_job_info] *)
Definition get_submitted_job_info : M (list Z * list Z * list Z * list Z) :=
  slurm_jobs <- pyslurm_job ;;
  ids <- iterate ;;
  for_acc ids ([], [], [], []) (sort_job slurm_jobs).

(** The body of the submission loop of [poll]. *)
Definition submit_one (n_submit i : Z) : M unit :=
  job_id <- submit_job ;;
  if bool_decide (job_id > 0) then
    log (LogSubmitted (i + 1) n_submit job_id)
  else
    log (LogSubmissionFailed (i + 1) n_submit).

(** [poll] *)
Definition poll : M unit :=
  info <- get_submitted_job_info ;;
  let '(running_ids, queued_ids, completed_ids, missing_ids) := info in
  let n_running := len running_ids in
  let n_queued := len queued_ids in
  let n_completed := len completed_ids in
  let n_missings := len missing_ids in
  for_ (completed_ids ++ missing_ids) (fun job_id => kill_job job_id ;; ret tt) ;;
  when (bool_decide (len completed_ids > 0)) (log (LogCompleted completed_ids)) ;;
  when (bool_decide (len missing_ids > 0)) (log (LogMissing missing_ids)) ;;
  self <- get_self ;;
  if bool_decide (n_running + n_queued < n_wanted self)
     && bool_decide (n_queued < max_n_queued self) then
    if bool_decide (n_queued < max_n_queued self) then
      let n_submit := Z.min (n_wanted self - (n_running + n_queued))
                            (max_n_queued self - n_queued) in
      log (LogSubmit n_running n_queued (n_wanted self) n_submit) ;;
      for_ (range n_submit) (submit_one n_submit)
    else
      when (bool_decide (verbose self >= 1))
        (log (LogWait n_running n_queued (n_wanted self) (max_n_queued self)))
  else
    when (bool_decide (verbose self >= 2))
      (log (LogStatus n_running n_queued (n_wanted self))).

(** [time.sleep(interval)] *)
Definition sleep (interval : Z) : M unit :=
  interrupted <- signal InSleep ;;
  emit (EvSleep interval interrupted) ;;
  if interrupted then raise KeyboardInterrupt else ret tt.

(** [while True: self.poll(); time.sleep(interval)], observed for at most
    [fuel] turns of the loop. *)
Fixpoint while_true (interval : Z) (fuel : nat) : M unit :=
  match fuel with
  | O => unfinished
  | S fuel' => poll ;; sleep interval ;; while_true interval fuel'
  end.

(** The [except KeyboardInterrupt] clause of [infinite_poll]. *)
Definition on_interrupt : M unit :=
  jobs <- iterate ;;
  let n_jobs := len jobs in
  log LogBlank ;;
  if bool_decide (n_jobs > 0) then
    log (LogCancelling jobs) ;;
    for_ jobs (fun job_id => kill_job job_id ;; ret tt)
  else
    log LogExiting.

(** [infinite_poll] *)
Definition infinite_poll (interval : Z) (fuel : nat) : M unit :=
  try_except (while_true interval fuel)
    (fun e => match e with
              | KeyboardInterrupt => Some on_interrupt
              | _ => None
              end).

End QueueManager.

(** ** The job file *)

(** The name of the job file of a manager, its command line and the text
    of the file, as [submit_job] computes them. *)
Definition job_filename (m : Manager) : string :=
  "job_idynamic." +:+ pretty (pid m).

Definition job_command (m : Manager) : string :=
  let command := _JOB_COMMAND in
  let command :=
    match profile m with
    | Some p => command +:+ " --profile=" +:+ p
    | None => command
    end in
  match profile_dir m with
  | Some d => command +:+ " --profile-dir=" +:+ d
  | None => command
  end.

Definition job_description (m : Manager) : string :=
  _JOB_DESC +:+ job_command m +:+ String "010"%char EmptyString.



(** ** Observations on states and traces *)

(** The registry. *)
Definition jobs (st : State) : gset Z := submitted_jobs (self st).

(** The state after the registry became [J] and [evs] happened. *)
Definition upd (st : State) (J : gset Z) (evs : list Event) : State :=
  {| self := with_jobs J (self st); trace := trace st ++ evs |}.

(** What happened between [st] and the later state [st']. *)
Definition new_events (st st' : State) : list Event :=
  drop (length (trace st)) (trace st').

(** The job ids of the kill requests sent to the scheduler, in order. *)
Definition kills (evs : list Event) : list Z :=
  omap (fun e => match e with EvKill job_id _ => Some job_id | _ => None end) evs.

(** The values returned by the calls of [slurm_submit], in order: one per
    submission attempt. *)
Definition attempts (evs : list Event) : list Z :=
  omap (fun e => match e with EvSbatch _ job_id => Some job_id | _ => None end) evs.

(** The attempts that succeeded, [job_id > 0]. *)
Definition successes (evs : list Event) : list Z :=
  filter (fun job_id => job_id > 0) (attempts evs).

(** The lines logged, in order. *)
Definition logged (evs : list Event) : list LogLine :=
  omap (fun e => match e with EvLog line => Some line | _ => None end) evs.

(** The job files that could not be written. *)
Definition write_failures (evs : list Event) : list string :=
  omap (fun e => match e with EvWriteFailed filename => Some filename | _ => None end)
       evs.

(** The sleeps of the loop, in order. *)
Definition sleeps (evs : list Event) : list Z :=
  omap (fun e => match e with EvSleep interval _ => Some interval | _ => None end) evs.

(** The events that follow the first arrival of the interrupt. *)
Fixpoint after_sigint (evs : list Event) : option (list Event) :=
  match evs with
  | [] => None
  | EvSigint :: evs' => Some evs'
  | _ :: evs' => after_sigint evs'
  end.

(** [m] started in [st] ends as [out] tells, leaves the registry equal to
    [J] and causes exactly the events [evs]. *)
Definition ends {A} (m : M A) (st : State) (out : outcome A) (J : gset Z)
    (evs : list Event) : Prop :=
  m st = (out, upd st J evs).

(** [m] started in [st] returns [a] without raising, leaves the registry
    equal to [J] and causes exactly the events [evs]. *)
Definition runs {A} (m : M A) (st : State) (a : A) (J : gset Z)
    (evs : list Event) : Prop :=
  m st = (Return a, upd st J evs).

(** The branch that the loop body of [get_submitted_job_info] takes for a
    record returned by [find_id]. *)
Inductive Branch : Type := Running | Queued | Completed | Missing | Unlisted.

Global Instance Branch_eq_dec : EqDecision Branch.
Proof. solve_decision. Defined.

Definition branch (info : option string) : Branch :=
  match info with
  | None => Missing
  | Some job_state =>
      if decide (job_state ∈ [JobState.RUNNING; JobState.SUSPENDED]) then Running
      else if decide (job_state = JobState.PENDING) then Queued
      else if decide (job_state ∈ [JobState.COMPLETED; JobState.COMPLETING;
                                   JobState.TIMEOUT]) then Completed
      else Unlisted
  end.

(** The members of [ids] whose record takes branch [b], in the order of
    [ids]. *)
Definition taking (slurm_jobs : Z -> option string) (b : Branch)
    (ids : list Z) : list Z :=
  filter (fun job_id => branch (slurm_jobs job_id) = b) ids.

(** The lines that the loop of [get_submitted_job_info] logs over [ids]. *)
Definition anomalies (slurm_jobs : Z -> option string) (ids : list Z) : list Event :=
  omap (fun job_id =>
          match slurm_jobs job_id with
          | Some job_state =>
              if decide (branch (Some job_state) = Unlisted)
              then Some (EvLog (LogUnknownState job_state job_id))
              else None
          | None => None
          end) ids.

(** The four lists that the loop of [get_submitted_job_info] builds from
    the job table [slurm_jobs] when it visits the ids [ids]. *)
Definition buckets (slurm_jobs : Z -> option string) (ids : list Z)
    : list Z * list Z * list Z * list Z :=
  (taking slurm_jobs Running ids, taking slurm_jobs Queued ids,
   taking slurm_jobs Completed ids, taking slurm_jobs Missing ids).

(** The order in which an iteration started in [st] visits the
    registry. *)
Definition registry_order (w : World) (st : State) : list Z :=
  iteration (set_rank w (trace st)) (jobs st).

(** The order in which [get_submitted_job_info], called in [st], visits
    the registry: the iteration starts after the table was fetched. *)
Definition query_order (w : World) (st : State) : list Z :=
  iteration (set_rank w (trace st ++ [EvQuery])) (jobs st).

(** The scheduler answers the query that [get_submitted_job_info] makes in
    [st]: the interrupt does not arrive during [pyslurm.job()], which
    does not raise, and the record of every tracked job can be read. *)
Definition query_answers (w : World) (st : State) : Prop :=
  sigint w (trace st) InQuery = false /\
  pyslurm_job_raises w (trace st) = false /\
  forall job_id, job_id ∈ jobs st -> find_id_raises w (trace st) job_id = false.

(** The number of submissions that the top-up step of [poll] plans from
    the two counts: the [n_submit] of the source when its guard holds,
    none otherwise. *)
Definition planned (n_wanted max_n_queued n_running n_queued : Z) : Z :=
  if bool_decide (n_running + n_queued < n_wanted)
     && bool_decide (n_queued < max_n_queued)
  then Z.min (n_wanted - (n_running + n_queued)) (max_n_queued - n_queued)
  else 0.

(** [job_id] is in the list [here] and in none of the three others. *)
Definition only_in (job_id : Z) (here other1 other2 other3 : list Z) : Prop :=
  job_id ∈ here /\ (job_id ∉ other1) /\ (job_id ∉ other2) /\ job_id ∉ other3.

(** The state tokens that [get_submitted_job_info] recognises. *)
Definition recognised : list string :=
  [JobState.RUNNING; JobState.SUSPENDED; JobState.PENDING;
   JobState.COMPLETED; JobState.COMPLETING; JobState.TIMEOUT].

(** The two report lines that [poll] logs after the clean-up. *)
Definition report (completed_ids missing_ids : list Z) : list Event :=
  (if bool_decide (len completed_ids > 0)
   then [EvLog (LogCompleted completed_ids)] else [])
  ++ (if bool_decide (len missing_ids > 0)
      then [EvLog (LogMissing missing_ids)] else []).

(** The job file of a manager can be written in [st]: the interrupt does
    not arrive while it is written, and [open], [write] and [close] do
    not raise. *)
Definition write_ok (w : World) (st : State) : Prop :=
  sigint w (trace st) InWrite = false /\
  write_raises w (trace st) (job_filename (self st)) = false.

(** A world where a job file can always be written. *)
Definition calm_writes (w : World) : Prop :=
  forall tr filename,
    sigint w tr InWrite = false /\ write_raises w tr filename = false.

(** How a batch of [n_submit] planned submissions ended, [evs] being its
    events: it returned after [n_submit] attempts, no write of the job
    file having failed; or a write of the job file failed, what it
    raised went on to the caller, and fewer attempts were made. *)
Definition batch_outcome (w : World) (n_submit : nat) (out : outcome unit)
    (evs : list Event) : Prop :=
  match out with
  | Return _ => length (attempts evs) = n_submit /\ write_failures evs = []
  | Raise e =>
      (e = IOError \/ e = KeyboardInterrupt) /\
      (length (attempts evs) < n_submit)%nat /\
      write_failures evs <> [] /\ ~ calm_writes w
  | Unfinished => False
  end.

(** Kill requests and nothing else, but for the arrival of the
    interrupt. *)
Definition only_kills (evs : list Event) : Prop :=
  Forall (fun e => match e with
                   | EvKill _ _ | EvSigint => True
                   | _ => False
                   end) evs.

(** Between [st] and [st_end] the registry was drained, as the handler
    of [infinite_poll] does it: the ids that were in the registry are
    logged and get one kill request each, in the order of the iteration
    over the registry, and no submission is made; the registry ends
    empty; and when it was empty already, two lines are logged (the
    blank one, then the one that says the program exits) and nothing
    else happens. *)
Definition drained (w : World) (st st_end : State) : Prop :=
  let ids := registry_order w st in
  (exists evs_kill,
     new_events st st_end
       = EvLog LogBlank ::
         (if bool_decide (len ids > 0)
          then EvLog (LogCancelling ids) :: evs_kill
          else [EvLog LogExiting]) /\
     only_kills evs_kill) /\
  kills (new_events st st_end) = ids /\
  (forall job_id, job_id ∈ ids <-> job_id ∈ jobs st) /\
  NoDup ids /\
  attempts (new_events st st_end) = [] /\
  jobs st_end = ∅ /\
  (jobs st = ∅ -> new_events st st_end = [EvLog LogBlank; EvLog LogExiting]).

(** Every member of the registry is positive and was returned by an
    earlier call of [slurm_submit] of this run. *)
Definition registry_closed (st : State) : Prop :=
  forall job_id, job_id ∈ jobs st -> job_id > 0 /\ job_id ∈ attempts (trace st).

(** [st'] comes after [st]: the trace only grew, and whatever entered the
    registry is a successful submission among the new events. *)
Definition follows (st st' : State) : Prop :=
  exists evs, trace st' = trace st ++ evs /\
              jobs st' ⊆ jobs st ∪ list_to_set (successes evs).

(** The methods of a manager, as a caller may invoke them;
    [infinite_poll] is observed for at most [fuel] turns of its loop. *)
Inductive Call : Type :=
  | CallPoll
  | CallSubmitJob
  | CallKillJob (job_id : Z)
  | CallGetSubmittedJobInfo
  | CallInfinitePoll (interval : Z) (fuel : nat).

Definition call (w : World) (c : Call) : M unit :=
  match c with
  | CallPoll => poll w
  | CallSubmitJob => submit_job w ;; ret tt
  | CallKillJob job_id => kill_job w job_id ;; ret tt
  | CallGetSubmittedJobInfo => get_submitted_job_info w ;; ret tt
  | CallInfinitePoll interval fuel => infinite_poll w interval fuel
  end.

(** A caller that goes on after an exception (it may catch it): the state
    after the calls [cs], whatever each one returned or raised. *)
Definition after_calls (w : World) (cs : list Call) (st : State) : State :=
  fold_left (fun st c => snd (call w c st)) cs st.

(** [m] never lets a [KeyError] out. *)
Definition no_key_error {A} (m : M A) : Prop :=
  forall st key, fst (m st) <> Raise (KeyError key).

(** ** Worlds *)

(** A world that differs from [w] by the arrival of the interrupt. *)
Definition with_sigint (w : World) (arrives : list Event -> Blocking -> bool)
    : World :=
  {| job_table := job_table w;
     pyslurm_kill_raises := pyslurm_kill_raises w;
     sbatch_output := sbatch_output w;
     os_getpgid := os_getpgid w;
     pyslurm_job_raises := pyslurm_job_raises w;
     find_id_raises := find_id_raises w;
     write_raises := write_raises w;
     sigint := arrives;
     set_rank := set_rank w |}.


(** A world that differs from [w] by what [sbatch] answers. *)
Definition with_sbatch_output (w : World)
    (output : list Event -> string -> option Z) : World :=
  {| job_table := job_table w;
     pyslurm_kill_raises := pyslurm_kill_raises w;
     sbatch_output := output;
     os_getpgid := os_getpgid w;
     pyslurm_job_raises := pyslurm_job_raises w;
     find_id_raises := find_id_raises w;
     write_raises := write_raises w;
     sigint := sigint w;
     set_rank := set_rank w |}.

(** A world that differs from [w] by whether [pyslurm.job()] raises. *)
Definition with_pyslurm_job_raises (w : World) (raises : list Event -> bool)
    : World :=
  {| job_table := job_table w;
     pyslurm_kill_raises := pyslurm_kill_raises w;
     sbatch_output := sbatch_output w;
     os_getpgid := os_getpgid w;
     pyslurm_job_raises := raises;
     find_id_raises := find_id_raises w;
     write_raises := write_raises w;
     sigint := sigint w;
     set_rank := set_rank w |}.

(** ** A concrete run

    A scheduler that numbers the jobs it accepts 7, 8, ... by the count of
    earlier [sbatch] calls, except that the third call fails.  It reports
    job 7 as [FAILED], 8 as [RUNNING], 11 as [COMPLETED], 12 as [PENDING]
    and has no record of any other job; a kill request for job 10 raises.
    Queries and file writes succeed, no interrupt arrives, and a set is
    visited by increasing id. *)
Definition demo_world : World :=
  {| job_table := (fun _ job_id =>
       if decide (job_id = 7) then Some "FAILED"%string
       else if decide (job_id = 8) then Some JobState.RUNNING
       else if decide (job_id = 11) then Some JobState.COMPLETED
       else if decide (job_id = 12) then Some JobState.PENDING
       else None);
     pyslurm_kill_raises := (fun _ job_id => bool_decide (job_id = 10));
     sbatch_output := (fun tr _ =>
       let k := length (attempts tr) in
       if decide (k = 2%nat) then None else Some (7 + Z.of_nat k));
     os_getpgid := 4242;
     pyslurm_job_raises := (fun _ => false);
     find_id_raises := (fun _ _ => false);
     write_raises := (fun _ _ => false);
     sigint := (fun _ _ => false);
     set_rank := (fun _ job_id => job_id) |}.

(** The manager of the run: 4 engines wanted, at most 3 queued. *)
Definition demo0 : State := __init__ demo_world None None 4 3 0.

(** After the first cycle the registry is {7, 8}: of the three attempts
    the third failed. *)
Definition demo1 : State := snd (poll demo_world demo0).

(** After the second cycle the registry is {7, 8, 10, 11, 12}. *)
Definition demo2 : State := snd (poll demo_world demo1).

(** After the third cycle the registry is {7, 8, 12, 13, 14}: 11 and 10
    were cleaned up, 13 and 14 submitted. *)
Definition demo3 : State := snd (poll demo_world demo2).

(** The same world, where the interrupt arrives during the second sleep
    of the loop. *)
Definition interrupted_in_sleep : World :=
  with_sigint demo_world
    (fun tr call =>
       match call with
       | InSleep => bool_decide (length (sleeps tr) = 1%nat)
       | _ => false
       end).

(** The same world, where the interrupt arrives while the second [sbatch]
    subprocess runs. *)
Definition interrupted_in_sbatch : World :=
  with_sigint demo_world
    (fun tr call =>
       match call with
       | InSbatch => bool_decide (length (attempts tr) = 1%nat)
       | _ => false
       end).

(** The same world, where the interrupt arrives during the first kill
    request. *)
Definition interrupted_in_kill : World :=
  with_sigint demo_world
    (fun tr call =>
       match call with
       | InKill _ => bool_decide (length (kills tr) = 0%nat)
       | _ => false
       end).

(** The same world, where the third call of [pyslurm.job()] raises. *)
Definition scheduler_down : World :=
  with_pyslurm_job_raises demo_world
    (fun tr => bool_decide (length (sleeps tr) = 2%nat)).

(** ** The scenarios of the description

    A scheduler with a fixed job table that accepts every submission but
    the one numbered [fail_at] (counting from 0), giving the ids 100,
    101, ...; its kill requests succeed, as do its queries and the file
    writes; no interrupt arrives. *)
Definition scenario_world (table : Z -> option string) (fail_at : nat) : World :=
  {| job_table := (fun _ => table);
     pyslurm_kill_raises := (fun _ _ => false);
     sbatch_output := (fun tr _ =>
       let k := length (attempts tr) in
       if decide (k = fail_at) then None else Some (100 + Z.of_nat k));
     os_getpgid := 1;
     pyslurm_job_raises := (fun _ => false);
     find_id_raises := (fun _ _ => false);
     write_raises := (fun _ _ => false);
     sigint := (fun _ _ => false);
     set_rank := (fun _ job_id => job_id) |}.

(** A manager that tracks [registry]. *)
Definition scenario_state (n_wanted max_n_queued : Z) (registry : gset Z) : State :=
  {| self := {| profile := None; profile_dir := None;
                n_wanted := n_wanted; max_n_queued := max_n_queued;
                verbose := 0; pid := 1; submitted_jobs := registry |};
     trace := [] |}.

(** Jobs 1 and 2 run, job 3 is queued. *)
Definition two_running_one_queued (job_id : Z) : option string :=
  if decide (job_id ∈ [1; 2]) then Some JobState.RUNNING
  else if decide (job_id = 3) then Some JobState.PENDING
  else None.

(** Jobs 1 and 2 are queued. *)
Definition two_queued (job_id : Z) : option string :=
  if decide (job_id ∈ [1; 2]) then Some JobState.PENDING else None.

(** Job 1 runs, job 2 is queued. *)
Definition one_running_one_queued (job_id : Z) : option string :=
  if decide (job_id = 1) then Some JobState.RUNNING
  else if decide (job_id = 2) then Some JobState.PENDING
  else None.


(** A scheduler without jobs whose [sbatch] prints the id 5 every time. *)
Definition same_id : World :=
  with_sbatch_output (scenario_world (fun _ => None) 99) (fun _ _ => Some 5).

(** ** The output of [sbatch], as [slurm_submit] reads it

    The [try] block of [slurm_submit] (lines 180-185) on the text that the
    subprocess wrote to its standard output. *)

(** The characters that [str.split()] takes as separators: space, tab,
    line feed, vertical tab, form feed and carriage return. *)
Definition isspace (c : ascii) : bool :=
  bool_decide (c ∈ [" "; "009"; "010"; "011"; "012"; "013"]%char).

(** [s.split(sep)] for a one-character separator, as its first piece and
    the pieces after it: the list is never empty. *)
Fixpoint split_on (sep : ascii) (s : string) : string * list string :=
  match s with
  | EmptyString => (EmptyString, [])
  | String c s' =>
      let '(piece, pieces) := split_on sep s' in
      if decide (c = sep) then (EmptyString, piece :: pieces)
      else (String c piece, pieces)
  end.

(** The word that starts at the head of [s] (empty when [s] starts with a
    separator or is empty) and the words after it. *)
Fixpoint split_words (s : string) : string * list string :=
  match s with
  | EmptyString => (EmptyString, [])
  | String c s' =>
      let '(word, words) := split_words s' in
      if isspace c
      then (EmptyString,
            match word with EmptyString => words | _ => word :: words end)
      else (String c word, words)
  end.

(** [s.split()]: the maximal runs of characters that are not separators. *)
Definition split (s : string) : list string :=
  let '(word, words) := split_words s in
  match word with EmptyString => words | _ => word :: words end.

(** The value of a decimal digit. *)
Definition digit (c : ascii) : option Z :=
  let n := Z.of_N (N_of_ascii c) in
  if bool_decide (48 <= n <= 57) then Some (n - 48) else None.

(** The value of a run of decimal digits that follows digits of value
    [acc]; [None] when a character is not a digit. *)
Fixpoint digits (acc : Z) (s : string) : option Z :=
  match s with
  | EmptyString => Some acc
  | String c s' =>
      match digit c with
      | Some d => digits (10 * acc + d) s'
      | None => None
      end
  end.

(** [int(word)] for a word without white space: an optional sign and at
    least one decimal digit; [None] is [ValueError]. *)
Definition int (word : string) : option Z :=
  match word with
  | EmptyString => None
  | String c rest =>
      if decide (c = "+"%char) then
        match rest with EmptyString => None | _ => digits 0 rest end
      else if decide (c = "-"%char) then
        match rest with EmptyString => None | _ => Z.opp <$> digits 0 rest end
      else digits 0 word
  end.

(** Lines 182-185: the first line of the output, its last word, as an
    integer.  [None] when [args[-1]] or [int] raises. *)
Definition parse_job_id (fout : string) : option Z :=
  let '(line, _) := split_on "010"%char fout in
  let args := split line in
  match last args with
  | Some word => int word
  | None => None
  end.

(** [slurm_submit] on what the subprocess printed, [None] when starting it
    or talking to it raised: the [job_id] that is returned.  The
    [sbatch_output] of a [World] is [fout ≫= parse_job_id] for the text
    [fout] of that call. *)
Definition job_id_of_output (fout : option string) : Z :=
  let job_id := -1 in
  match fout ≫= parse_job_id with
  | Some n => n
  | None => job_id
  end.

(** The characters of a string. *)
Definition chars (s : string) : list ascii := list_ascii_of_string s.

(** ** The command line: [get_args], [check_args], [main] *)

(** An attribute of the namespace that argparse returns: the default as
    it is, or, for a flag declared with [nargs = 1], the list of the
    values given. *)
Inductive Arg (A : Type) : Type :=
  | Plain (a : A)
  | Listed (l : list A).
Arguments Plain {A} a.
Arguments Listed {A} l.

Module Namespace.
Record t : Type := {
  profile : Arg (option string);
  profile_dir : Arg (option string);
  n_wanted : Arg Z;
  max_n_queued : Arg Z
}.
End Namespace.

(** The flags found on the command line, each with the value that
    argparse converted ([type = str], [type = int]); [None]: the flag is
    not there. *)
Record Flags : Type := {
  flag_profile : option string;
  flag_profile_dir : option string;
  flag_n : option Z;
  flag_q : option Z
}.

(** What the start of the program logs. *)
Inductive StartLine : Type :=
  | ErrorNWanted
  | ErrorMaxNQueued
  | Started (pid : Z).

(** [get_args], from the flags that [parse_args] found. *)
Definition get_args (argv : Flags) : Namespace.t :=
  {| Namespace.profile :=
       match flag_profile argv with
       | Some s => Listed [Some s]
       | None => Plain _DEFAULT_PROFILE
       end;
     Namespace.profile_dir :=
       match flag_profile_dir argv with
       | Some s => Listed [Some s]
       | None => Plain _DEFAULT_PROFILE_DIR
       end;
     Namespace.n_wanted :=
       match flag_n argv with
       | Some n => Listed [n]
       | None => Plain _DEFAULT_N_WANTED
       end;
     Namespace.max_n_queued :=
       match flag_q argv with
       | Some q => Listed [q]
       | None => Plain _DEFAULT_MAX_N_QUEUED
       end |}.

(** [if isinstance(value, list): value = value[0]]; [None] is the
    [IndexError] of an empty list. *)
Definition first_if_list {A} (value : Arg A) : option A :=
  match value with
  | Plain a => Some a
  | Listed l => head l
  end.

(** How [check_args] ends: it returns, the four attributes being now
    these values; or [exit(status)] after a line was logged; or the
    [IndexError] of an empty list. *)
Inductive Checked : Type :=
  | ArgsOk (profile profile_dir : option string) (n_wanted max_n_queued : Z)
  | ArgsExit (status : Z) (line : StartLine)
  | ArgsIndexError.

(** [check_args] *)
Definition check_args (config : Namespace.t) : Checked :=
  match first_if_list (Namespace.profile config),
        first_if_list (Namespace.profile_dir config),
        first_if_list (Namespace.n_wanted config),
        first_if_list (Namespace.max_n_queued config) with
  | Some profile, Some profile_dir, Some n_wanted, Some max_n_queued =>
      if bool_decide (n_wanted <= 0) then ArgsExit 1 ErrorNWanted
      else if bool_decide (max_n_queued <= 0) then ArgsExit 1 ErrorMaxNQueued
      else ArgsOk profile profile_dir n_wanted max_n_queued
  | _, _, _, _ => ArgsIndexError
  end.

(** How [main] ends: by the [exit] or the [IndexError] of [check_args],
    or with what [infinite_poll] returned or raised. *)
Inductive MainOutcome : Type :=
  | MainExit (status : Z) (lines : list StartLine)
  | MainIndexError
  | MainRan (lines : list StartLine) (result : outcome unit * State).


(** [main]; the loop of [infinite_poll] is observed for at most [fuel]
    turns. *)
Definition main (w : World) (argv : Flags) (fuel : nat) : MainOutcome :=
  let config := get_args argv in
  match check_args config with
  | ArgsExit status line => MainExit status [line]
  | ArgsIndexError => MainIndexError
  | ArgsOk profile profile_dir n_wanted max_n_queued =>
      let manager := __init__ w profile profile_dir n_wanted max_n_queued 0 in
      MainRan [Started (pid (self manager))]
              (infinite_poll w 30 fuel manager)
  end.

(** ** The registry as a function of the trace *)

(** What an event does to the set of tracked ids: a submission that
    returned a positive id adds it, a kill request removes its id. *)
Definition replay_event (J : gset Z) (e : Event) : gset Z :=
  match e with
  | EvSbatch _ job_id => if bool_decide (job_id > 0) then {[job_id]} ∪ J else J
  | EvKill job_id _ => J ∖ {[job_id]}
  | _ => J
  end.

(** The set of tracked ids after the events [evs], starting from [J]. *)
Definition replay (J : gset Z) (evs : list Event) : gset Z :=
  foldl replay_event J evs.

(** Every kill request in [evs] is for an id that is tracked when it is
    sent, the tracked ids being [J] before [evs]. *)
Fixpoint kills_tracked (J : gset Z) (evs : list Event) : Prop :=
  match evs with
  | [] => True
  | e :: evs' =>
      match e with
      | EvKill job_id _ => job_id ∈ J
      | _ => True
      end /\ kills_tracked (replay_event J e) evs'
  end.

(** [st'] comes after [st] by events that account for the registry. *)
Definition replays (st st' : State) : Prop :=
  exists evs, trace st' = trace st ++ evs /\
              jobs st' = replay (jobs st) evs /\
              kills_tracked (jobs st) evs.

(** [k] cycles in a row. *)
Definition poll_cycles (w : World) (k : nat) (st : State) : State :=
  after_calls w (replicate k CallPoll) st.

(** ** What a manager may do *)

(** The events that the methods of the manager [m] can cause. *)
Inductive may_emit (m : Manager) : Event -> Prop :=
  | emit_query : may_emit m EvQuery
  | emit_query_failed : may_emit m EvQueryFailed
  | emit_sigint : may_emit m EvSigint
  | emit_unknown job_state job_id :
      may_emit m (EvLog (LogUnknownState job_state job_id))
  | emit_kill job_id raised : may_emit m (EvKill job_id raised)
  | emit_completed ids : may_emit m (EvLog (LogCompleted ids))
  | emit_missing ids : may_emit m (EvLog (LogMissing ids))
  | emit_submit n_running n_queued n_wanted n_submit :
      may_emit m (EvLog (LogSubmit n_running n_queued n_wanted n_submit))
  | emit_write :
      may_emit m (EvWriteFile (job_filename m) (job_description m))
  | emit_write_failed :
      may_emit m (EvWriteFailed (job_filename m))
  | emit_sbatch job_id :
      may_emit m (EvSbatch (_SUBMIT_COMMAND (job_filename m)) job_id)
  | emit_submitted i n_submit job_id :
      may_emit m (EvLog (LogSubmitted i n_submit job_id))
  | emit_failed i n_submit :
      may_emit m (EvLog (LogSubmissionFailed i n_submit))
  | emit_status n_running n_queued n_wanted :
      verbose m >= 2 ->
      may_emit m (EvLog (LogStatus n_running n_queued n_wanted))
  | emit_sleep interval interrupted : may_emit m (EvSleep interval interrupted)
  | emit_blank : may_emit m (EvLog LogBlank)
  | emit_cancelling ids : may_emit m (EvLog (LogCancelling ids))
  | emit_exiting : may_emit m (EvLog LogExiting).

(** From any state that [st0] can become (another registry, more events),
    [m] only adds events that the manager of [st0] may emit, and leaves
    the rest of the manager as it is. *)
Definition emits_from (st0 : State) {A} (m : M A) : Prop :=
  forall J evs, exists J' evs',
    snd (m (upd st0 J evs)) = upd st0 J' (evs ++ evs') /\
    Forall (may_emit (self st0)) evs'.

(** [m] takes every state to one that is related to it by [R]. *)
Definition keeps (R : State -> State -> Prop) {A} (m : M A) : Prop :=
  forall st, R st (snd (m st)).


(** * Properties *)

(** ** States *)

Lemma upd_id st : upd st (jobs st) [] = st.
Proof.
  destruct st as [[] tr]. unfold upd, jobs, with_jobs. simpl.
  by rewrite app_nil_r.
Qed.

Lemma upd_upd st J evs J' evs' :
  upd (upd st J evs) J' evs' = upd st J' (evs ++ evs').
Proof. unfold upd. simpl. by rewrite app_assoc. Qed.

Lemma upd_same st evs :
  {| self := self st; trace := trace st ++ evs |} = upd st (jobs st) evs.
Proof. destruct st as [[] tr]. reflexivity. Qed.

Lemma with_jobs_id st : with_jobs (jobs st) (self st) = self st.
Proof. by destruct st as [[] tr]. Qed.

Lemma upd_jobs st J :
  {| self := with_jobs J (self st); trace := trace st |} = upd st J [].
Proof. unfold upd. by rewrite app_nil_r. Qed.

Lemma new_events_upd st J evs : new_events st (upd st J evs) = evs.
Proof. unfold new_events. simpl. by rewrite drop_app_length. Qed.

Lemma new_events_app st st' evs :
  trace st' = trace st ++ evs -> new_events st st' = evs.
Proof. unfold new_events. intros ->. by rewrite drop_app_length. Qed.

Lemma kills_app evs1 evs2 : kills (evs1 ++ evs2) = kills evs1 ++ kills evs2.
Proof. apply omap_app. Qed.

Lemma attempts_app evs1 evs2 :
  attempts (evs1 ++ evs2) = attempts evs1 ++ attempts evs2.
Proof. apply omap_app. Qed.

Lemma successes_app evs1 evs2 :
  successes (evs1 ++ evs2) = successes evs1 ++ successes evs2.
Proof. unfold successes. by rewrite attempts_app, filter_app. Qed.

Lemma write_failures_app evs1 evs2 :
  write_failures (evs1 ++ evs2) = write_failures evs1 ++ write_failures evs2.
Proof. apply omap_app. Qed.

Lemma only_kills_attempts evs : only_kills evs -> attempts evs = [].
Proof.
  induction 1 as [|e evs He _ IH]; [done|]. by destruct e.
Qed.

Lemma only_kills_write_failures evs : only_kills evs -> write_failures evs = [].
Proof.
  induction 1 as [|e evs He _ IH]; [done|]. by destruct e.
Qed.

Lemma only_kills_logged evs : only_kills evs -> logged evs = [].
Proof.
  induction 1 as [|e evs He _ IH]; [done|]. by destruct e.
Qed.

(** ** The order of an iteration *)

Lemma iteration_Permutation rank (s : gset Z) : iteration rank s ≡ₚ elements s.
Proof. unfold iteration. apply merge_sort_Permutation. Qed.

Lemma elem_of_iteration rank (s : gset Z) x : x ∈ iteration rank s <-> x ∈ s.
Proof. by rewrite iteration_Permutation, elem_of_elements. Qed.

Lemma NoDup_iteration rank (s : gset Z) : NoDup (iteration rank s).
Proof. rewrite iteration_Permutation. apply NoDup_elements. Qed.

Lemma length_iteration rank (s : gset Z) : length (iteration rank s) = size s.
Proof. by rewrite iteration_Permutation. Qed.

Lemma list_to_set_iteration rank (s : gset Z) : list_to_set (iteration rank s) = s.
Proof.
  apply set_eq. intros x. by rewrite elem_of_list_to_set, elem_of_iteration.
Qed.

Lemma iteration_empty rank : iteration rank ∅ = [].
Proof.
  apply Permutation_nil_r. rewrite iteration_Permutation. by rewrite elements_empty.
Qed.

(** ** The monad *)

Lemma runs_ret {A} (a : A) st : runs (ret a) st a (jobs st) [].
Proof. unfold runs, ret. by rewrite upd_id. Qed.

Lemma runs_bind {A B} (m : M A) (k : A -> M B) st a J evs b J' evs' :
  runs m st a J evs ->
  runs (k a) (upd st J evs) b J' evs' ->
  runs (bind m k) st b J' (evs ++ evs').
Proof.
  unfold runs, bind. intros -> ->. by rewrite upd_upd.
Qed.

Lemma ends_bind {A B} (m : M A) (k : A -> M B) st a J evs out J' evs' :
  runs m st a J evs ->
  ends (k a) (upd st J evs) out J' evs' ->
  ends (bind m k) st out J' (evs ++ evs').
Proof.
  unfold runs, ends, bind. intros -> ->. by rewrite upd_upd.
Qed.

Lemma ends_bind_raise {A B} (m : M A) (k : A -> M B) st e J evs :
  ends m st (Raise e) J evs -> ends (bind m k) st (Raise e) J evs.
Proof. unfold ends, bind. by intros ->. Qed.

Lemma ends_raise {A} e st : ends (raise (A := A) e) st (Raise e) (jobs st) [].
Proof. unfold ends, raise. by rewrite upd_id. Qed.

Lemma ends_bind_quiet {A B} (m : M A) (k : A -> M B) st a out J' evs' :
  runs m st a (jobs st) [] -> ends (k a) st out J' evs' ->
  ends (bind m k) st out J' evs'.
Proof.
  intros Hm Hk. change evs' with ([] ++ evs').
  eapply ends_bind; [exact Hm|]. by rewrite upd_id.
Qed.

Lemma runs_bind_quiet {A B} (m : M A) (k : A -> M B) st a b J' evs' :
  runs m st a (jobs st) [] -> runs (k a) st b J' evs' ->
  runs (bind m k) st b J' evs'.
Proof. apply ends_bind_quiet. Qed.

Lemma ends_bind_end {A B} (m : M A) (k : A -> M B) st a J evs out J' :
  runs m st a J evs -> ends (k a) (upd st J evs) out J' [] ->
  ends (bind m k) st out J' evs.
Proof.
  intros Hm Hk. rewrite <- (app_nil_r evs). by eapply ends_bind.
Qed.

Lemma runs_bind_end {A B} (m : M A) (k : A -> M B) st a J evs b J' :
  runs m st a J evs -> runs (k a) (upd st J evs) b J' [] ->
  runs (bind m k) st b J' evs.
Proof. apply ends_bind_end. Qed.

Lemma runs_get_self st : runs get_self st (self st) (jobs st) [].
Proof. unfold runs, get_self. by rewrite upd_id. Qed.

Lemma runs_emit e st : runs (emit e) st tt (jobs st) [e].
Proof. unfold runs, emit. by rewrite upd_same. Qed.

Lemma runs_log line st : runs (log line) st tt (jobs st) [EvLog line].
Proof. apply runs_emit. Qed.

Lemma runs_when_log (c : bool) line st :
  runs (when c (log line)) st tt (jobs st) (if c then [EvLog line] else []).
Proof. destruct c; [apply runs_log | exact (runs_ret _ _)]. Qed.

Lemma runs_set_add x st : runs (set_add x) st tt ({[x]} ∪ jobs st) [].
Proof. unfold runs, set_add. by rewrite upd_jobs. Qed.

Lemma runs_set_remove x st :
  x ∈ jobs st -> runs (set_remove x) st tt (jobs st ∖ {[x]}) [].
Proof.
  intros Hx. unfold runs, set_remove. fold (jobs st).
  rewrite decide_True by done. by rewrite upd_jobs.
Qed.

Lemma set_remove_absent x st :
  x ∉ jobs st -> set_remove x st = (Raise (KeyError x), st).
Proof.
  intros Hx. unfold set_remove. fold (jobs st). by rewrite decide_False.
Qed.

(** ** [kill_job] and the loops that call it *)

Section Operations.

Variable w : World.

Lemma runs_signal call st :
  runs (signal w call) st (sigint w (trace st) call) (jobs st)
       (if sigint w (trace st) call then [EvSigint] else []).
Proof.
  unfold runs, signal. destruct (sigint w (trace st) call).
  - by rewrite upd_same.
  - by rewrite upd_id.
Qed.

Lemma runs_iterate st : runs (iterate w) st (registry_order w st) (jobs st) [].
Proof. unfold runs, iterate. by rewrite upd_id. Qed.

(** [kill_job] on a member never raises: the bare [except] takes what
    the kill request raises, the interrupt too. *)
Lemma kill_job_member job_id st :
  job_id ∈ jobs st ->
  let interrupted := sigint w (trace st) (InKill job_id) in
  let raised := interrupted || pyslurm_kill_raises w (trace st) job_id in
  runs (kill_job w job_id) st (negb raised) (jobs st ∖ {[job_id]})
       ((if interrupted then [EvSigint] else []) ++ [EvKill job_id raised]).
Proof.
  intros Hin interrupted raised. unfold runs, kill_job, bind, try_except.
  rewrite (runs_set_remove _ _ Hin).
  unfold slurm_kill_job, bind, signal, emit, raise, ret. simpl.
  rewrite app_nil_r. subst raised. fold interrupted.
  destruct interrupted; simpl.
  - unfold upd. simpl. by rewrite <- !app_assoc.
  - rewrite app_nil_r.
    destruct (pyslurm_kill_raises w (trace st) job_id); simpl; reflexivity.
Qed.

Lemma kill_job_absent job_id st :
  job_id ∉ jobs st -> kill_job w job_id st = (Raise (KeyError job_id), st).
Proof.
  intros Hin. unfold kill_job, bind. by rewrite set_remove_absent.
Qed.

(** Killing distinct members one after the other never raises: each is
    removed and gets exactly one kill request, whether or not the
    requests before it failed or were interrupted. *)
Lemma kill_loop_runs ids : forall st,
  NoDup ids -> (forall x, x ∈ ids -> x ∈ jobs st) ->
  exists evs,
    runs (for_ ids (fun job_id => kill_job w job_id ;; ret tt)) st tt
         (jobs st ∖ list_to_set ids) evs /\
    kills evs = ids /\ only_kills evs.
Proof.
  induction ids as [|x ids IH]; intros st Hnd Hsub.
  - exists []. split; [|by split; [|constructor]]. simpl.
    replace (jobs st ∖ ∅) with (jobs st) by set_solver. exact (runs_ret _ _).
  - apply NoDup_cons in Hnd as [Hx Hnd].
    pose proof (kill_job_member x st (Hsub x ltac:(left))) as Hk.
    cbv zeta in Hk.
    set (interrupted := sigint w (trace st) (InKill x)) in *.
    set (raised := interrupted || pyslurm_kill_raises w (trace st) x) in *.
    set (evs1 := (if interrupted then [EvSigint] else []) ++ [EvKill x raised]) in *.
    destruct (IH (upd st (jobs st ∖ {[x]}) evs1) Hnd) as (evs & Hrun & Hkills & Honly).
    { intros y Hy. unfold jobs, upd. simpl.
      assert (y ≠ x) by (intros ->; done).
      specialize (Hsub y ltac:(by right)). set_solver. }
    exists (evs1 ++ evs). split; [|split].
    + change (for_ (x :: ids) (fun job_id => kill_job w job_id ;; ret tt))
        with (bind (kill_job w x ;; ret tt)
                (fun _ => for_ ids (fun job_id => kill_job w job_id ;; ret tt))).
      replace (jobs st ∖ list_to_set (x :: ids))
        with (jobs st ∖ {[x]} ∖ list_to_set ids) by set_solver.
      eapply runs_bind; [|exact Hrun].
      eapply runs_bind_end; [exact Hk|]. exact (runs_ret tt _).
    + rewrite kills_app, Hkills. unfold evs1. by destruct interrupted.
    + apply Forall_app. split; [|done]. unfold evs1.
      destruct interrupted; repeat constructor.
Qed.

End Operations.

(** ** [submit_job] and the top-up loop *)

Section Submission.

Variable w : World.

Lemma calm_writes_ok st : calm_writes w -> write_ok w st.
Proof.
  intros Hcalm. destruct (Hcalm (trace st) (job_filename (self st))). by split.
Qed.

(** Writing the job file: the interrupt arrives, or the file system
    raises, or the file is written. *)
Lemma write_file_cases description filename st :
  (sigint w (trace st) InWrite = true /\
   ends (_write_job_description_file w description filename) st
        (Raise KeyboardInterrupt) (jobs st) [EvSigint; EvWriteFailed filename]) \/
  (sigint w (trace st) InWrite = false /\
   write_raises w (trace st) filename = true /\
   ends (_write_job_description_file w description filename) st
        (Raise IOError) (jobs st) [EvWriteFailed filename]) \/
  (sigint w (trace st) InWrite = false /\
   write_raises w (trace st) filename = false /\
   runs (_write_job_description_file w description filename) st tt (jobs st)
        [EvWriteFile filename description]).
Proof.
  unfold _write_job_description_file.
  pose proof (runs_signal w InWrite st) as Hs.
  destruct (sigint w (trace st) InWrite) eqn:Hsig.
  - left. split; [done|].
    change [EvSigint; EvWriteFailed filename]
      with ([EvSigint] ++ [EvWriteFailed filename] ++ []).
    eapply ends_bind; [exact Hs|]. cbv beta iota.
    eapply ends_bind; [apply runs_emit|].
    exact (ends_raise _ _).
  - right. destruct (write_raises w (trace st) filename) eqn:Hw.
    + left. split; [done|]. split; [done|].
      eapply ends_bind_quiet; [exact Hs|]. cbv beta iota.
      unfold ends. rewrite Hw. by rewrite upd_same.
    + right. split; [done|]. split; [done|].
      eapply runs_bind_quiet; [exact Hs|]. cbv beta iota.
      unfold runs. rewrite Hw. by rewrite upd_same.
Qed.

(** [slurm_submit] never raises: the bare [except] takes whatever the
    [try] block raises, the interrupt too, and [-1] is returned. *)
Lemma slurm_submit_runs filename st :
  exists job_id evs,
    runs (slurm_submit w filename) st job_id (jobs st) evs /\
    attempts evs = [job_id] /\ kills evs = [] /\ write_failures evs = [] /\
    Forall (fun e => e = EvSigint \/ e = EvSbatch (_SUBMIT_COMMAND filename) job_id)
           evs.
Proof.
  unfold slurm_submit. cbv zeta.
  set (cmd := _SUBMIT_COMMAND filename).
  assert (Htry : exists job_id sig,
            runs (try_except (sbatch w cmd) (fun _ => Some (ret (-1)))) st
                 job_id (jobs st) (if sig : bool then [EvSigint] else [])).
  { destruct (sigint w (trace st) InSbatch) eqn:Hsig.
    - exists (-1), true. unfold runs, try_except, sbatch, bind, signal.
      rewrite Hsig. unfold raise, ret. by rewrite upd_same.
    - destruct (sbatch_output w (trace st) cmd) as [n|] eqn:Hout.
      + exists n, false. unfold runs, try_except, sbatch, bind, signal.
        rewrite Hsig, Hout. by rewrite upd_id.
      + exists (-1), false. unfold runs, try_except, sbatch, bind, signal.
        rewrite Hsig, Hout. unfold ret. by rewrite upd_id. }
  destruct Htry as (job_id & sig & Htry).
  exists job_id, ((if sig then [EvSigint] else []) ++ [EvSbatch cmd job_id] ++ []).
  split; [|split; [|split; [|split]]].
  - eapply runs_bind; [exact Htry|].
    eapply runs_bind; [apply runs_emit|]. exact (runs_ret _ _).
  - by destruct sig.
  - by destruct sig.
  - by destruct sig.
  - destruct sig; simpl; repeat (constructor; [by auto|]); constructor.
Qed.

Lemma submit_job_unfold st :
  submit_job w st
  = (_write_job_description_file w (job_description (self st))
       (job_filename (self st)) ;;
     job_id <- slurm_submit w (job_filename (self st)) ;;
     when (bool_decide (job_id > 0)) (set_add job_id) ;;
     ret job_id) st.
Proof. reflexivity. Qed.

(** One call of [submit_job]: either the job file cannot be written, and
    what that raises goes on to the caller before any submission is
    attempted; or exactly one submission attempt is made, whose result
    is returned and added to the registry when it is a positive id. *)
Lemma submit_job_cases st :
  exists out J evs,
    ends (submit_job w) st out J evs /\ kills evs = [] /\
    match out with
    | Return job_id =>
        write_ok w st /\ attempts evs = [job_id] /\ write_failures evs = [] /\
        J = (if bool_decide (job_id > 0) then {[job_id]} ∪ jobs st else jobs st)
    | Raise e =>
        ~ write_ok w st /\ (e = IOError \/ e = KeyboardInterrupt) /\
        attempts evs = [] /\ write_failures evs <> [] /\ J = jobs st
    | Unfinished => False
    end.
Proof.
  unfold ends. rewrite submit_job_unfold.
  set (filename := job_filename (self st)).
  set (description := job_description (self st)).
  destruct (write_file_cases description filename st)
    as [[Hsig Hw]|[(Hsig & Hraise & Hw)|(Hsig & Hraise & Hw)]].
  - exists (Raise KeyboardInterrupt), (jobs st), [EvSigint; EvWriteFailed filename].
    split; [by apply ends_bind_raise|]. split; [done|].
    split; [intros [? _]; congruence|]. split; [by right|]. done.
  - exists (Raise IOError), (jobs st), [EvWriteFailed filename].
    split; [by apply ends_bind_raise|]. split; [done|].
    split; [intros [_ ?]; unfold filename in *; congruence|].
    split; [by left|]. done.
  - destruct (slurm_submit_runs filename
                (upd st (jobs st) [EvWriteFile filename description]))
      as (job_id & evs & Hrun & Hatt & Hk & Hwf & _).
    exists (Return job_id),
      (if bool_decide (job_id > 0) then {[job_id]} ∪ jobs st else jobs st),
      ([EvWriteFile filename description] ++ evs ++ [] ++ []).
    split; [|split; [|split; [|split; [|split]]]].
    + eapply runs_bind; [exact Hw|].
      eapply runs_bind; [exact Hrun|]. rewrite upd_upd.
      eapply runs_bind; [|exact (runs_ret _ _)].
      destruct (bool_decide (job_id > 0)); [exact (runs_set_add _ _)|exact (runs_ret _ _)].
    + rewrite kills_app, !app_nil_r. by rewrite Hk.
    + done.
    + rewrite attempts_app, !app_nil_r. by rewrite Hatt.
    + rewrite write_failures_app, !app_nil_r. by rewrite Hwf.
    + done.
Qed.

(** How a batch of [n_submit] planned submissions ended: either all the
    attempts were made, or writing the job file raised, the error went on
    to the caller and fewer attempts were made. *)
Lemma batch_outcome_facts n_submit out evs :
  batch_outcome w n_submit out evs ->
  (length (attempts evs) <= n_submit)%nat /\
  (out = Return tt <-> length (attempts evs) = n_submit /\ write_failures evs = []) /\
  (out = Return tt \/ out = Raise IOError \/ out = Raise KeyboardInterrupt) /\
  (calm_writes w -> out = Return tt).
Proof.
  destruct out as [[]|e|]; simpl; [| |done].
  - intros [-> Hw]. repeat split; auto.
  - intros ([-> | ->] & Hlt & Hw & Hcalm); (split; [lia|]);
      (split; [split; [done|intros [? _]; lia]|]); (split; [auto|done]).
Qed.

Lemma top_up_loop_cases n_submit (idx : list Z) : forall st,
  exists out evs,
    ends (for_ idx (submit_one w n_submit)) st out
         (jobs st ∪ list_to_set (successes evs)) evs /\
    kills evs = [] /\
    batch_outcome w (length idx) out evs.
Proof.
  induction idx as [|i idx IH]; intros st.
  - exists (Return tt), []. split; [|done].
    assert (jobs st ∪ list_to_set (successes []) = jobs st) as ->
      by (unfold successes; simpl; set_solver).
    exact (runs_ret _ _).
  - destruct (submit_job_cases st) as (out1 & J1 & evs1 & Hsub & Hk1 & Hcase).
    destruct out1 as [job_id|e|]; [| |done].
    + destruct Hcase as (_ & Hatt & Hwf & ->).
      set (J1 := if bool_decide (job_id > 0) then {[job_id]} ∪ jobs st else jobs st)
        in Hsub.
      set (line := if bool_decide (job_id > 0)
                   then LogSubmitted (i + 1) n_submit job_id
                   else LogSubmissionFailed (i + 1) n_submit).
      destruct (IH (upd st J1 (evs1 ++ [EvLog line])))
        as (out & evs2 & Hrest & Hk2 & Hbatch).
      exists out, ((evs1 ++ [EvLog line]) ++ evs2). split; [|split].
      * simpl. eapply ends_bind.
        -- unfold submit_one. eapply runs_bind; [exact Hsub|].
           fold line.
           replace (if bool_decide (job_id > 0)
                    then log (LogSubmitted (i + 1) n_submit job_id)
                    else log (LogSubmissionFailed (i + 1) n_submit))
             with (log line) by (unfold line; by destruct (bool_decide _)).
           apply (runs_log line (upd st J1 evs1)).
        -- replace (jobs st ∪ list_to_set (successes ((evs1 ++ [EvLog line]) ++ evs2)))
             with (jobs (upd st J1 (evs1 ++ [EvLog line]))
                     ∪ list_to_set (successes evs2));
             [exact Hrest|].
           unfold jobs at 1. simpl.
           rewrite !successes_app. unfold successes at 2 3. rewrite Hatt. simpl.
           unfold J1. rewrite filter_cons, filter_nil.
           destruct (bool_decide (job_id > 0)) eqn:Hpos.
           ++ apply bool_decide_eq_true in Hpos. rewrite decide_True by done.
              set_solver.
           ++ apply bool_decide_eq_false in Hpos. rewrite decide_False by done.
              set_solver.
      * rewrite !kills_app, Hk1, Hk2. done.
      * destruct out as [[]|e|]; simpl in *; [| |done].
        -- destruct Hbatch as [Hlen Hw]. split.
           ++ rewrite !attempts_app, !length_app, Hatt, Hlen. simpl. lia.
           ++ by rewrite !write_failures_app, Hwf, Hw.
        -- destruct Hbatch as (He & Hlt & Hw & Hcalm). split; [done|].
           split; [rewrite !attempts_app, !length_app, Hatt; simpl; lia|].
           split; [|done].
           rewrite !write_failures_app, Hwf. simpl. done.
    + destruct Hcase as (Hnok & He & Hatt & Hwf & ->).
      exists (Raise e), evs1. split; [|split].
      * simpl. apply ends_bind_raise. unfold submit_one.
        apply ends_bind_raise.
        replace (jobs st ∪ list_to_set (successes evs1)) with (jobs st);
          [exact Hsub|].
        unfold successes. rewrite Hatt, filter_nil. set_solver.
      * done.
      * simpl. split; [done|]. split; [rewrite Hatt; simpl; lia|].
        split; [done|]. intros Hcalm. apply Hnok. by apply calm_writes_ok.
Qed.

End Submission.

(** ** [get_submitted_job_info] *)

Section Classification.

Variable w : World.

Lemma taking_cons slurm_jobs b x ids :
  taking slurm_jobs b (x :: ids) =
    (if decide (branch (slurm_jobs x) = b) then [x] else [])
      ++ taking slurm_jobs b ids.
Proof. unfold taking. rewrite filter_cons. by case_decide. Qed.

Lemma elem_of_taking slurm_jobs b ids x :
  x ∈ taking slurm_jobs b ids <-> branch (slurm_jobs x) = b /\ x ∈ ids.
Proof.
  exact (list_elem_of_filter (fun job_id => branch (slurm_jobs job_id) = b) ids x).
Qed.

Lemma NoDup_taking slurm_jobs b ids : NoDup ids -> NoDup (taking slurm_jobs b ids).
Proof.
  exact (NoDup_filter (fun job_id => branch (slurm_jobs job_id) = b) ids).
Qed.

Lemma kills_anomalies slurm_jobs ids : kills (anomalies slurm_jobs ids) = [].
Proof.
  induction ids as [|x ids IH]; [done|]. unfold anomalies. simpl.
  destruct (slurm_jobs x); [|exact IH]. case_decide; exact IH.
Qed.

Lemma attempts_anomalies slurm_jobs ids : attempts (anomalies slurm_jobs ids) = [].
Proof.
  induction ids as [|x ids IH]; [done|]. unfold anomalies. simpl.
  destruct (slurm_jobs x); [|exact IH]. case_decide; exact IH.
Qed.

Lemma write_failures_anomalies slurm_jobs ids :
  write_failures (anomalies slurm_jobs ids) = [].
Proof.
  induction ids as [|x ids IH]; [done|]. unfold anomalies. simpl.
  destruct (slurm_jobs x); [|exact IH]. case_decide; exact IH.
Qed.

(** One turn of the loop, when the record can be read: the id is
    appended to the list of the branch its record takes; an id taking
    the last branch is appended to none and logged. *)
Lemma sort_job_runs slurm_jobs r q c m x st :
  unreadable slurm_jobs x = false ->
  runs (sort_job slurm_jobs (r, q, c, m) x) st
       (r ++ taking (records slurm_jobs) Running [x],
        q ++ taking (records slurm_jobs) Queued [x],
        c ++ taking (records slurm_jobs) Completed [x],
        m ++ taking (records slurm_jobs) Missing [x])
       (jobs st) (anomalies (records slurm_jobs) [x]).
Proof.
  intros Hread. unfold sort_job, find_id. rewrite Hread.
  rewrite !taking_cons. unfold taking. rewrite !filter_nil, !app_nil_r.
  unfold anomalies. cbn [omap list_omap].
  eapply runs_bind_quiet; [exact (runs_ret _ _)|]. cbv beta.
  destruct (records slurm_jobs x) as [job_state|] eqn:Hx; cbn [branch].
  - destruct (decide (job_state ∈ [JobState.RUNNING; JobState.SUSPENDED]));
      [|destruct (decide (job_state = JobState.PENDING));
        [|destruct (decide (job_state ∈ [JobState.COMPLETED; JobState.COMPLETING;
                                         JobState.TIMEOUT]))]];
      repeat (case_decide; try congruence); rewrite ?app_nil_r;
      try exact (runs_ret _ _).
    eapply runs_bind_end; [apply runs_log|]. exact (runs_ret _ _).
  - repeat (case_decide; try congruence). rewrite ?app_nil_r. exact (runs_ret _ _).
Qed.

Lemma sort_job_raises slurm_jobs lists x st :
  unreadable slurm_jobs x = true ->
  ends (sort_job slurm_jobs lists x) st (Raise SlurmError) (jobs st)
       [EvQueryFailed].
Proof.
  intros Hread. destruct lists as [[[r q] c] m].
  unfold sort_job, find_id. rewrite Hread.
  apply ends_bind_raise.
  eapply ends_bind_end; [apply runs_emit|].
  exact (ends_raise _ _).
Qed.

Lemma anomalies_cons slurm_jobs x ids :
  anomalies slurm_jobs (x :: ids)
  = anomalies slurm_jobs [x] ++ anomalies slurm_jobs ids.
Proof.
  unfold anomalies. cbn [omap list_omap].
  destruct (slurm_jobs x); [|done]. by case_decide.
Qed.

(** The loop over the registry. *)
Lemma classify_loop_cases slurm_jobs ids : forall r q c m st,
  exists out evs,
    ends (for_acc ids (r, q, c, m) (sort_job slurm_jobs)) st out (jobs st) evs /\
    kills evs = [] /\ attempts evs = [] /\ write_failures evs = [] /\
    match out with
    | Return info =>
        (forall x, x ∈ ids -> unreadable slurm_jobs x = false) /\
        info = (r ++ taking (records slurm_jobs) Running ids,
                q ++ taking (records slurm_jobs) Queued ids,
                c ++ taking (records slurm_jobs) Completed ids,
                m ++ taking (records slurm_jobs) Missing ids) /\
        evs = anomalies (records slurm_jobs) ids
    | Raise e =>
        e = SlurmError /\ exists x, x ∈ ids /\ unreadable slurm_jobs x = true
    | Unfinished => False
    end.
Proof.
  induction ids as [|x ids IH]; intros r q c m st.
  - exists (Return (r, q, c, m)), []. split; [exact (runs_ret _ _)|].
    do 3 (split; [done|]). split; [by intros x Hx%elem_of_nil|].
    unfold taking. by rewrite !filter_nil, !app_nil_r.
  - destruct (unreadable slurm_jobs x) eqn:Hread.
    + exists (Raise SlurmError), [EvQueryFailed].
      split; [|split; [done|split; [done|split; [done|]]]].
      * cbn [for_acc]. apply ends_bind_raise.
        exact (sort_job_raises _ _ _ _ Hread).
      * split; [done|]. exists x. split; [left|done].
    + pose proof (sort_job_runs slurm_jobs r q c m x st Hread) as Hone.
      destruct (IH (r ++ taking (records slurm_jobs) Running [x])
                   (q ++ taking (records slurm_jobs) Queued [x])
                   (c ++ taking (records slurm_jobs) Completed [x])
                   (m ++ taking (records slurm_jobs) Missing [x])
                   (upd st (jobs st) (anomalies (records slurm_jobs) [x])))
        as (out & evs & Hrest & Hk & Ha & Hw & Hcase).
      exists out, (anomalies (records slurm_jobs) [x] ++ evs).
      split; [|split; [|split; [|split]]].
      * cbn [for_acc]. eapply ends_bind; [exact Hone|exact Hrest].
      * by rewrite kills_app, kills_anomalies, Hk.
      * by rewrite attempts_app, attempts_anomalies, Ha.
      * by rewrite write_failures_app, write_failures_anomalies, Hw.
      * destruct out as [info|e|]; [| |done].
        -- destruct Hcase as (Hall & -> & ->). split; [|split].
           ++ intros y [->|Hy]%elem_of_cons; [done|by apply Hall].
           ++ rewrite <- !app_assoc. change (x :: ids) with ([x] ++ ids).
              unfold taking. by rewrite !filter_app.
           ++ by rewrite <- anomalies_cons.
        -- destruct Hcase as (-> & y & Hy & Hbad). split; [done|].
           exists y. split; [by right|done].
Qed.

Lemma elem_of_query_order st x : x ∈ query_order w st <-> x ∈ jobs st.
Proof. apply elem_of_iteration. Qed.

Lemma NoDup_query_order st : NoDup (query_order w st).
Proof. apply NoDup_iteration. Qed.

(** [get_submitted_job_info] leaves the registry as it is, sends no kill
    request and submits nothing.  When the scheduler answers it returns
    the [buckets] of the job table it fetched; when not, what
    [pyslurm.job()] or [find_id] raised goes on to the caller. *)
Lemma get_submitted_job_info_cases st :
  exists out evs,
    ends (get_submitted_job_info w) st out (jobs st) evs /\
    kills evs = [] /\ attempts evs = [] /\ write_failures evs = [] /\
    match out with
    | Return info =>
        query_answers w st /\
        info = buckets (job_table w (trace st)) (query_order w st) /\
        evs = EvQuery :: anomalies (job_table w (trace st)) (query_order w st)
    | Raise e =>
        ~ query_answers w st /\ (e = SlurmError \/ e = KeyboardInterrupt)
    | Unfinished => False
    end.
Proof.
  unfold get_submitted_job_info, pyslurm_job.
  destruct (sigint w (trace st) InQuery) eqn:Hsig.
  { exists (Raise KeyboardInterrupt), [EvSigint; EvQueryFailed].
    split; [|split; [done|split; [done|split; [done|]]]].
    - apply ends_bind_raise.
      change [EvSigint; EvQueryFailed] with ([EvSigint] ++ [EvQueryFailed] ++ []).
      pose proof (runs_signal w InQuery st) as Hs. rewrite Hsig in Hs.
      eapply ends_bind; [exact Hs|]. cbv beta iota.
      eapply ends_bind; [apply runs_emit|].
      exact (ends_raise _ _).
    - split; [|by right]. intros (Hno & _). congruence. }
  destruct (pyslurm_job_raises w (trace st)) eqn:Hraise.
  { exists (Raise SlurmError), [EvQueryFailed].
    split; [|split; [done|split; [done|split; [done|]]]].
    - apply ends_bind_raise.
      pose proof (runs_signal w InQuery st) as Hs. rewrite Hsig in Hs.
      eapply ends_bind_quiet; [exact Hs|]. cbv beta iota.
      unfold ends. rewrite Hraise. by rewrite upd_same.
    - split; [|by left]. intros (_ & Hno & _). congruence. }
  set (slurm_jobs := {| records := job_table w (trace st);
                        unreadable := find_id_raises w (trace st) |}).
  assert (Hfetch : runs (interrupted <- signal w InQuery;;
             if interrupted
             then emit EvQueryFailed;; raise KeyboardInterrupt
             else fun st0 : State =>
                    if pyslurm_job_raises w (trace st0)
                    then (Raise SlurmError,
                          {| self := self st0;
                             trace := trace st0 ++ [EvQueryFailed] |})
                    else (Return {| records := job_table w (trace st0);
                                    unreadable := find_id_raises w (trace st0) |},
                          {| self := self st0; trace := trace st0 ++ [EvQuery] |}))
            st slurm_jobs (jobs st) [EvQuery]).
  { pose proof (runs_signal w InQuery st) as Hs. rewrite Hsig in Hs.
    eapply runs_bind_quiet; [exact Hs|]. cbv beta iota.
    unfold runs. rewrite Hraise. by rewrite upd_same. }
  set (st1 := upd st (jobs st) [EvQuery]).
  destruct (classify_loop_cases slurm_jobs (query_order w st) [] [] [] [] st1)
    as (out & evs & Hloop & Hk & Ha & Hw & Hcase).
  exists out, ([EvQuery] ++ evs).
  split; [|split; [|split; [|split]]]; try done.
  - eapply ends_bind; [exact Hfetch|].
    eapply ends_bind_quiet; [exact (runs_iterate w _)|]. exact Hloop.
  - destruct out as [info|e|]; [| |done].
    + destruct Hcase as (Hall & -> & ->). split; [|done].
      split; [done|]. split; [done|].
      intros job_id Hin. apply (Hall job_id). by apply elem_of_query_order.
    + destruct Hcase as (-> & x & Hx & Hbad). split; [|by left].
      intros (_ & _ & Hall). apply elem_of_query_order in Hx.
      specialize (Hall x Hx). simpl in Hbad. congruence.
Qed.

Lemma get_submitted_job_info_runs st :
  query_answers w st ->
  runs (get_submitted_job_info w) st
       (buckets (job_table w (trace st)) (query_order w st)) (jobs st)
       (EvQuery :: anomalies (job_table w (trace st)) (query_order w st)).
Proof.
  intros Hq.
  destruct (get_submitted_job_info_cases st)
    as (out & evs & Hends & _ & _ & _ & Hcase).
  destruct out as [info|e|]; [|by destruct Hcase|done].
  destruct Hcase as (_ & -> & ->). exact Hends.
Qed.

Lemma get_submitted_job_info_unanswered st :
  ~ query_answers w st ->
  exists e evs,
    ends (get_submitted_job_info w) st (Raise e) (jobs st) evs /\
    (e = SlurmError \/ e = KeyboardInterrupt) /\
    kills evs = [] /\ attempts evs = [] /\ write_failures evs = [].
Proof.
  intros Hq.
  destruct (get_submitted_job_info_cases st)
    as (out & evs & Hends & Hk & Ha & Hw & Hcase).
  destruct out as [info|e|]; [by destruct Hcase|..|done].
  destruct Hcase as [_ He]. by exists e, evs.
Qed.

End Classification.

(** ** One cycle: [poll] *)

Section Cycle.

Variable w : World.

Lemma taking_disjoint slurm_jobs b1 b2 ids x :
  b1 ≠ b2 -> x ∈ taking slurm_jobs b1 ids -> x ∉ taking slurm_jobs b2 ids.
Proof.
  intros Hne [H1 _]%elem_of_taking [H2 _]%elem_of_taking. congruence.
Qed.

Lemma NoDup_taking_app slurm_jobs b1 b2 ids :
  b1 ≠ b2 -> NoDup ids ->
  NoDup (taking slurm_jobs b1 ids ++ taking slurm_jobs b2 ids).
Proof.
  intros Hne Hnd. apply NoDup_app. split; [by apply NoDup_taking|].
  split; [|by apply NoDup_taking].
  intros x. by apply taking_disjoint.
Qed.

Lemma quiet_when_log (c : bool) line st :
  exists out evs,
    ends (when c (log line)) st out (jobs st ∪ list_to_set (successes evs)) evs /\
    kills evs = [] /\ batch_outcome w (Z.to_nat 0) out evs.
Proof.
  exists (Return tt), (if c then [EvLog line] else []).
  assert (jobs st ∪ list_to_set (successes (if c then [EvLog line] else []))
          = jobs st) as -> by (destruct c; unfold successes; simpl; set_solver).
  split; [apply runs_when_log|]. by destruct c.
Qed.

Lemma batch_outcome_log n_submit out line evs :
  batch_outcome w n_submit out evs ->
  batch_outcome w n_submit out (EvLog line :: evs).
Proof. by destruct out. Qed.

(** The top-up step, from the counts [n_running] and [n_queued]. *)
Lemma top_up_cases (nw mq vb n_running n_queued : Z) st :
  exists out evs,
    ends (if bool_decide (n_running + n_queued < nw)
             && bool_decide (n_queued < mq) then
            if bool_decide (n_queued < mq) then
              let n_submit := Z.min (nw - (n_running + n_queued))
                                    (mq - n_queued) in
              log (LogSubmit n_running n_queued nw n_submit) ;;
              for_ (range n_submit) (submit_one w n_submit)
            else
              when (bool_decide (vb >= 1))
                (log (LogWait n_running n_queued nw mq))
          else
            when (bool_decide (vb >= 2))
              (log (LogStatus n_running n_queued nw))) st out
         (jobs st ∪ list_to_set (successes evs)) evs /\
    kills evs = [] /\
    batch_outcome w (Z.to_nat (planned nw mq n_running n_queued)) out evs.
Proof.
  unfold planned.
  destruct (bool_decide (n_running + n_queued < nw)) eqn:Hdef;
    [destruct (bool_decide (n_queued < mq)) eqn:Hcap|]; cbn [andb].
  - set (n_submit := Z.min (nw - (n_running + n_queued)) (mq - n_queued)).
    destruct (top_up_loop_cases w n_submit (range n_submit)
                (upd st (jobs st) [EvLog (LogSubmit n_running n_queued nw n_submit)]))
      as (out & evs & Hrun & Hk & Hbatch).
    exists out, ([EvLog (LogSubmit n_running n_queued nw n_submit)] ++ evs).
    split; [|split].
    + cbv zeta. eapply ends_bind; [apply runs_log|]. exact Hrun.
    + rewrite kills_app. by rewrite Hk.
    + apply batch_outcome_log. unfold range in Hbatch.
      by rewrite length_seqZ in Hbatch.
  - apply quiet_when_log.
  - apply quiet_when_log.
Qed.

Lemma buckets_facts slurm_jobs ids r q c m :
  buckets slurm_jobs ids = (r, q, c, m) ->
  r = taking slurm_jobs Running ids /\ q = taking slurm_jobs Queued ids /\
  c = taking slurm_jobs Completed ids /\ m = taking slurm_jobs Missing ids.
Proof. unfold buckets. by intros [= <- <- <- <-]. Qed.

(** One cycle in which the scheduler answers.  The job table is fetched
    and the ids of unrecognised state are logged; one kill request is
    sent to each completed and each missing id, which are removed; the
    report is logged; then the planned submission attempts are made, the
    successful ones are added, and the cycle returns, unless writing the
    job file raises, which ends the cycle. *)
Lemma poll_answered st r q c m :
  query_answers w st ->
  buckets (job_table w (trace st)) (query_order w st) = (r, q, c, m) ->
  exists evs_kill out evs_top,
    kills evs_kill = c ++ m /\ only_kills evs_kill /\
    kills evs_top = [] /\
    batch_outcome w
      (Z.to_nat (planned (n_wanted (self st)) (max_n_queued (self st))
                         (len r) (len q))) out evs_top /\
    ends (poll w) st out
         (jobs st ∖ list_to_set (c ++ m) ∪ list_to_set (successes evs_top))
         ((EvQuery :: anomalies (job_table w (trace st)) (query_order w st))
            ++ evs_kill ++ report c m ++ evs_top).
Proof.
  intros Hq Hb.
  set (slurm_jobs := job_table w (trace st)) in *.
  set (ids := query_order w st) in *.
  set (evs1 := EvQuery :: anomalies slurm_jobs ids).
  pose proof (get_submitted_job_info_runs w st Hq) as Hinfo.
  fold slurm_jobs ids evs1 in Hinfo. rewrite Hb in Hinfo.
  destruct (buckets_facts _ _ _ _ _ _ Hb) as (_ & _ & Hc & Hm).
  set (st1 := upd st (jobs st) evs1).
  destruct (kill_loop_runs w (c ++ m) st1) as (evs_kill & Hkill & Hkills & Honly).
  { rewrite Hc, Hm. apply NoDup_taking_app; [done|apply NoDup_query_order]. }
  { intros x. rewrite Hc, Hm, elem_of_app, !elem_of_taking.
    unfold ids. rewrite !elem_of_query_order. unfold jobs. simpl. tauto. }
  set (J2 := jobs st ∖ list_to_set (c ++ m)).
  set (st2 := upd st1 J2 evs_kill).
  set (r1 := if bool_decide (len c > 0) then [EvLog (LogCompleted c)] else []).
  set (r2 := if bool_decide (len m > 0) then [EvLog (LogMissing m)] else []).
  set (st3 := upd st2 J2 r1).
  set (st4 := upd st3 J2 r2).
  destruct (top_up_cases (n_wanted (self st)) (max_n_queued (self st))
              (verbose (self st)) (len r) (len q) st4)
    as (out & evs_top & Htop & Hk & Hbatch).
  exists evs_kill, out, evs_top. do 4 (split; [done|]).
  unfold poll. eapply ends_bind; [exact Hinfo|]. cbv beta iota zeta.
  eapply ends_bind; [exact Hkill|].
  unfold report. fold r1 r2. rewrite <- !app_assoc.
  eapply ends_bind; [exact (runs_when_log _ _ st2)|].
  eapply ends_bind; [exact (runs_when_log _ _ st3)|].
  eapply ends_bind_quiet; [exact (runs_get_self _)|].
  exact Htop.
Qed.

(** One cycle in which the scheduler does not answer: what the query
    raised goes on to the caller, and nothing else happens. *)
Lemma poll_unanswered st :
  ~ query_answers w st ->
  exists e evs,
    ends (poll w) st (Raise e) (jobs st) evs /\
    (e = SlurmError \/ e = KeyboardInterrupt) /\
    kills evs = [] /\ attempts evs = [] /\ write_failures evs = [].
Proof.
  intros Hq.
  destruct (get_submitted_job_info_cases w st)
    as (out & evs & Hends & Hk & Ha & Hw & Hcase).
  destruct out as [info|e|]; [by destruct Hcase|..|done].
  destruct Hcase as [_ He]. exists e, evs.
  split; [|done]. unfold poll. by apply ends_bind_raise.
Qed.

Lemma query_answers_or_not st : query_answers w st \/ ~ query_answers w st.
Proof.
  destruct (get_submitted_job_info_cases w st)
    as (out & evs & _ & _ & _ & _ & Hcase).
  destruct out as [info|e|]; [left|right|done]; by destruct Hcase.
Qed.

Lemma attempts_report c m : attempts (report c m) = [].
Proof. unfold report. by do 2 case_bool_decide. Qed.

Lemma kills_report c m : kills (report c m) = [].
Proof. unfold report. by do 2 case_bool_decide. Qed.

Lemma write_failures_report c m : write_failures (report c m) = [].
Proof. unfold report. by do 2 case_bool_decide. Qed.

(** What one cycle does when the scheduler answers, seen from outside:
    the events before the top-up ([evs_pre]: the query, the anomalies,
    the kills, the report) and the events of the top-up ([evs_top]). *)
Lemma poll_summary st :
  query_answers w st ->
  exists r q c m st1 out st' evs_pre evs_top,
    get_submitted_job_info w st = (Return (r, q, c, m), st1) /\
    (r, q, c, m) = buckets (job_table w (trace st)) (query_order w st) /\
    poll w st = (out, st') /\
    new_events st st' = evs_pre ++ evs_top /\
    new_events st st1 = EvQuery :: anomalies (job_table w (trace st))
                                             (query_order w st) /\
    (forall e, e ∈ new_events st st1 -> e ∈ evs_pre) /\
    kills evs_pre = c ++ m /\
    attempts evs_pre = [] /\
    write_failures evs_pre = [] /\
    kills evs_top = [] /\
    batch_outcome w
      (Z.to_nat (planned (n_wanted (self st)) (max_n_queued (self st))
                         (len r) (len q))) out evs_top /\
    jobs st' = jobs st ∖ list_to_set (c ++ m) ∪ list_to_set (successes evs_top).
Proof.
  intros Hq.
  destruct (buckets (job_table w (trace st)) (query_order w st))
    as [[[r q] c] m] eqn:Hb.
  destruct (poll_answered st r q c m Hq Hb)
    as (evs_kill & out & evs_top & Hkills & Honly & Hk & Hbatch & Hrun).
  pose proof (get_submitted_job_info_runs w st Hq) as Hinfo.
  rewrite Hb in Hinfo.
  set (evs1 := EvQuery :: anomalies (job_table w (trace st))
                                    (query_order w st)) in *.
  exists r, q, c, m. eexists _, out, _.
  exists (evs1 ++ evs_kill ++ report c m), evs_top.
  split; [exact Hinfo|]. split; [done|]. split; [exact Hrun|].
  rewrite !new_events_upd.
  split; [by rewrite <- !app_assoc|]. split; [done|].
  split; [intros e He; apply elem_of_app; by left|].
  assert (Hk1 : kills evs1 = []).
  { unfold evs1, kills. simpl. apply kills_anomalies. }
  assert (Ha1 : attempts evs1 = []).
  { unfold evs1, attempts. simpl. apply attempts_anomalies. }
  assert (Hw1 : write_failures evs1 = []).
  { unfold evs1, write_failures. simpl. apply write_failures_anomalies. }
  split; [by rewrite !kills_app, Hk1, kills_report, Hkills, app_nil_r|].
  split.
  { by rewrite !attempts_app, Ha1, attempts_report, (only_kills_attempts _ Honly). }
  split.
  { by rewrite !write_failures_app, Hw1, write_failures_report,
      (only_kills_write_failures _ Honly). }
  done.
Qed.

(** A cycle returns when the scheduler answers and the job file can be
    written. *)
Lemma poll_returns st :
  query_answers w st -> calm_writes w -> exists st', poll w st = (Return tt, st').
Proof.
  intros Hq Hcalm.
  destruct (poll_summary st Hq)
    as (r & q & c & m & st1 & out & st' & evs_pre & evs_top & _ & _ & Hpoll
        & _ & _ & _ & _ & _ & _ & _ & Hbatch & _).
  apply batch_outcome_facts in Hbatch as (_ & _ & _ & Hret).
  exists st'. by rewrite Hpoll, (Hret Hcalm).
Qed.

(** How a cycle can end: it returns, or the scheduler query raises, or
    the writing of the job file raises.  It never ends with the
    [KeyError] of a removal from the registry. *)
Lemma poll_outcome st :
  match fst (poll w st) with
  | Return _ => query_answers w st
  | Raise e =>
      (~ query_answers w st /\ (e = SlurmError \/ e = KeyboardInterrupt)) \/
      (query_answers w st /\ (e = IOError \/ e = KeyboardInterrupt))
  | Unfinished => False
  end.
Proof.
  destruct (query_answers_or_not st) as [Hq|Hq].
  - destruct (poll_summary st Hq)
      as (r & q & c & m & st1 & out & st' & evs_pre & evs_top & _ & _ & Hpoll
          & _ & _ & _ & _ & _ & _ & _ & Hbatch & _).
    rewrite Hpoll. simpl. destruct out as [[]|e|]; [done| |done].
    right. split; [done|]. by destruct Hbatch.
  - destruct (poll_unanswered st Hq) as (e & evs & Hpoll & He & _).
    unfold ends in Hpoll. rewrite Hpoll. simpl. by left.
Qed.

End Cycle.

(** ** Relations that every step keeps *)

Section Keeps.

Variable R : State -> State -> Prop.
Hypothesis R_refl : forall st, R st st.
Hypothesis R_trans : forall st1 st2 st3, R st1 st2 -> R st2 st3 -> R st1 st3.

Lemma keeps_ret {A} (a : A) : keeps R (ret a).
Proof. intros st. apply R_refl. Qed.

Lemma keeps_raise {A} e : keeps R (raise (A := A) e).
Proof. intros st. apply R_refl. Qed.

Lemma keeps_unfinished {A} : keeps R (unfinished (A := A)).
Proof. intros st. apply R_refl. Qed.

Lemma keeps_get_self : keeps R get_self.
Proof. intros st. apply R_refl. Qed.

Lemma keeps_bind {A B} (m : M A) (k : A -> M B) :
  keeps R m -> (forall a, keeps R (k a)) -> keeps R (bind m k).
Proof.
  intros Hm Hk st. specialize (Hm st). unfold bind.
  destruct (m st) as [[a|e|] st1]; [|done..].
  eapply R_trans; [exact Hm|apply Hk].
Qed.

Lemma keeps_try {A} (body : M A) handler :
  keeps R body -> (forall e h, handler e = Some h -> keeps R h) ->
  keeps R (try_except body handler).
Proof.
  intros Hm Hh st. specialize (Hm st). unfold try_except.
  destruct (body st) as [[a|e|] st1]; [done| |done].
  destruct (handler e) as [h|] eqn:He; [|done].
  eapply R_trans; [exact Hm|by eapply Hh].
Qed.

Lemma keeps_for {A} (xs : list A) body :
  (forall x, keeps R (body x)) -> keeps R (for_ xs body).
Proof.
  intros Hbody. induction xs as [|x xs IH]; [apply keeps_ret|].
  simpl. apply keeps_bind; [apply Hbody|done].
Qed.

Lemma keeps_for_acc {A B} (xs : list A) (body : B -> A -> M B) : forall acc,
  (forall acc x, keeps R (body acc x)) -> keeps R (for_acc xs acc body).
Proof.
  intros acc Hbody. revert acc. induction xs as [|x xs IH]; intros acc;
    [apply keeps_ret|].
  simpl. apply keeps_bind; [apply Hbody|intros acc'; apply IH].
Qed.

Lemma keeps_when (c : bool) m : keeps R m -> keeps R (when c m).
Proof. intros Hm. destruct c; [done|apply keeps_ret]. Qed.

End Keeps.

(** ** The registry and the trace *)

Section Replay.

Variable w : World.

Lemma replay_app J evs1 evs2 :
  replay J (evs1 ++ evs2) = replay (replay J evs1) evs2.
Proof. apply foldl_app. Qed.

Lemma kills_tracked_app evs1 : forall J evs2,
  kills_tracked J (evs1 ++ evs2) <->
  kills_tracked J evs1 /\ kills_tracked (replay J evs1) evs2.
Proof.
  induction evs1 as [|e evs1 IH]; intros J evs2; simpl; [tauto|].
  rewrite IH. fold (replay (replay_event J e) evs1). tauto.
Qed.

Lemma replays_refl st : replays st st.
Proof. exists []. by rewrite app_nil_r. Qed.

Lemma replays_trans st1 st2 st3 :
  replays st1 st2 -> replays st2 st3 -> replays st1 st3.
Proof.
  intros (evs1 & Ht1 & Hj1 & Hk1) (evs2 & Ht2 & Hj2 & Hk2).
  exists (evs1 ++ evs2). split; [by rewrite Ht2, Ht1, app_assoc|].
  rewrite replay_app, kills_tracked_app, <- Hj1. done.
Qed.

Lemma replays_upd st J evs :
  J = replay (jobs st) evs -> kills_tracked (jobs st) evs ->
  replays st (upd st J evs).
Proof. intros -> Hk. by exists evs. Qed.

(** Events without a kill request only add the successful submissions. *)
Lemma replay_no_kill evs : forall J,
  kills evs = [] ->
  replay J evs = J ∪ list_to_set (successes evs) /\ kills_tracked J evs.
Proof.
  induction evs as [|e evs IH]; intros J Hk.
  - split; [|done]. unfold successes. simpl. set_solver.
  - assert (Hk' : kills evs = []) by (by destruct e).
    destruct (IH (replay_event J e) Hk') as [Hr Ht].
    split; [|by destruct e].
    change (replay J (e :: evs)) with (replay (replay_event J e) evs).
    rewrite Hr.
    destruct e as [| |job_id raised| |cmd job_id| | | |]; try done.
    simpl. unfold successes, attempts. simpl.
    fold (attempts evs). rewrite filter_cons.
    case_bool_decide; [rewrite decide_True by done|rewrite decide_False by done];
      set_solver.
Qed.

Lemma replay_quiet evs J :
  kills evs = [] -> attempts evs = [] ->
  replay J evs = J /\ kills_tracked J evs.
Proof.
  intros Hk Ha. destruct (replay_no_kill evs J Hk) as [Hr Ht].
  split; [|done]. rewrite Hr. unfold successes. rewrite Ha. set_solver.
Qed.

Lemma replays_quiet st evs :
  kills evs = [] -> attempts evs = [] -> replays st (upd st (jobs st) evs).
Proof.
  intros Hk Ha. destruct (replay_quiet evs (jobs st) Hk Ha) as [Hr Ht].
  by apply replays_upd.
Qed.

Lemma replay_bounds evs : forall J,
  replay J evs ⊆ J ∪ list_to_set (successes evs) /\
  J ∪ list_to_set (successes evs) ⊆ replay J evs ∪ list_to_set (kills evs).
Proof.
  induction evs as [|e evs IH]; intros J.
  - unfold successes. simpl. set_solver.
  - change (replay J (e :: evs)) with (replay (replay_event J e) evs).
    destruct (IH (replay_event J e)) as [Hup Hlow].
    destruct e as [| |job_id raised| |cmd job_id| | | |];
      try (split; [exact Hup|exact Hlow]).
    + simpl in *. unfold kills. simpl. fold (kills evs).
      split; [set_solver|].
      intros x Hx. destruct (decide (x = job_id)) as [->|Hne]; [set_solver|].
      assert (x ∈ J ∖ {[job_id]} ∪ list_to_set (successes evs)) as Hx' by set_solver.
      apply Hlow in Hx'. set_solver.
    + simpl in *. unfold successes, attempts in *. simpl.
      fold (attempts evs) in *. rewrite filter_cons.
      case_bool_decide; [rewrite decide_True by done|rewrite decide_False by done];
        set_solver.
Qed.

Lemma kills_tracked_split evs : forall J before job_id raised after,
  kills_tracked J evs -> evs = before ++ EvKill job_id raised :: after ->
  job_id ∈ replay J before.
Proof.
  intros J before job_id raised after Hk ->.
  apply kills_tracked_app in Hk as [_ Hk]. simpl in Hk. tauto.
Qed.

Lemma replays_from_init st st' :
  jobs st = replay ∅ (trace st) -> replays st st' ->
  jobs st' = replay ∅ (trace st').
Proof.
  intros Hj (evs & Ht & Hj' & _). by rewrite Ht, replay_app, <- Hj.
Qed.

Lemma replays_follows st st' : replays st st' -> follows st st'.
Proof.
  intros (evs & Ht & Hj & _). exists evs. split; [done|].
  rewrite Hj. apply replay_bounds.
Qed.

(** *** The operations on the registry *)

Lemma kill_job_replays job_id : keeps replays (kill_job w job_id).
Proof.
  intros st. destruct (decide (job_id ∈ jobs st)) as [Hin|Hin].
  - pose proof (kill_job_member w job_id st Hin) as Hrun. cbv zeta in Hrun.
    unfold runs in Hrun. rewrite Hrun. cbn [snd].
    apply replays_upd; by destruct (sigint w (trace st) (InKill job_id)).
  - rewrite (kill_job_absent w job_id st Hin). apply replays_refl.
Qed.

Lemma submit_job_replays : keeps replays (submit_job w).
Proof.
  intros st.
  destruct (submit_job_cases w st) as (out & J & evs & Hends & Hk & Hcase).
  unfold ends in Hends. rewrite Hends. cbn [snd].
  destruct (replay_no_kill evs (jobs st) Hk) as [Hr Ht].
  apply replays_upd; [|done]. rewrite Hr.
  destruct out as [job_id|e|]; [| |done].
  - destruct Hcase as (_ & Hatt & _ & ->).
    unfold successes. rewrite Hatt, filter_cons, filter_nil.
    case_bool_decide; [rewrite decide_True by done|rewrite decide_False by done];
      set_solver.
  - destruct Hcase as (_ & _ & Hatt & _ & ->).
    unfold successes. rewrite Hatt, filter_nil. set_solver.
Qed.

Lemma get_submitted_job_info_replays : keeps replays (get_submitted_job_info w).
Proof.
  intros st.
  destruct (get_submitted_job_info_cases w st)
    as (out & evs & Hends & Hk & Ha & _).
  unfold ends in Hends. rewrite Hends. cbn [snd]. by apply replays_quiet.
Qed.

Lemma emit_replays e :
  kills [e] = [] -> attempts [e] = [] -> keeps replays (emit e).
Proof.
  intros Hk Ha st. pose proof (runs_emit e st) as Hrun.
  unfold runs in Hrun. rewrite Hrun. cbn [snd]. by apply replays_quiet.
Qed.

Lemma log_replays line : keeps replays (log line).
Proof. by apply emit_replays. Qed.

Lemma signal_replays call : keeps replays (signal w call).
Proof.
  intros st. pose proof (runs_signal w call st) as Hrun.
  unfold runs in Hrun. rewrite Hrun. cbn [snd].
  apply replays_quiet; by destruct (sigint w (trace st) call).
Qed.

Lemma iterate_replays : keeps replays (iterate w).
Proof. intros st. apply replays_refl. Qed.

Local Ltac step :=
  first [ apply (keeps_bind replays replays_trans)
        | apply (keeps_ret replays replays_refl)
        | apply (keeps_raise replays replays_refl) ].

Lemma kill_loop_replays ids :
  keeps replays (for_ ids (fun job_id => kill_job w job_id ;; ret tt)).
Proof.
  apply (keeps_for replays replays_refl replays_trans). intros job_id.
  step; [apply kill_job_replays|intros; step].
Qed.

Lemma submit_one_replays n_submit i : keeps replays (submit_one w n_submit i).
Proof.
  unfold submit_one. step; [apply submit_job_replays|].
  intros job_id. case_bool_decide; apply log_replays.
Qed.

Lemma poll_replays : keeps replays (poll w).
Proof.
  unfold poll. step; [apply get_submitted_job_info_replays|].
  intros [[[r q] c] m]. cbv zeta.
  step; [apply kill_loop_replays|intros _].
  step; [apply (keeps_when replays replays_refl), log_replays|intros _].
  step; [apply (keeps_when replays replays_refl), log_replays|intros _].
  step; [apply (keeps_get_self replays replays_refl)|intros self].
  destruct (bool_decide (len r + len q < n_wanted self));
    destruct (bool_decide (len q < max_n_queued self)); cbn [andb];
    try apply (keeps_when replays replays_refl), log_replays.
  step; [apply log_replays|intros _].
  apply (keeps_for replays replays_refl replays_trans). intros i.
  apply submit_one_replays.
Qed.

Lemma sleep_replays interval : keeps replays (sleep w interval).
Proof.
  unfold sleep. step; [apply signal_replays|intros interrupted].
  step; [by apply emit_replays|intros _].
  destruct interrupted; step.
Qed.

Lemma while_true_replays interval fuel : keeps replays (while_true w interval fuel).
Proof.
  induction fuel as [|fuel IH]; simpl.
  - apply (keeps_unfinished replays replays_refl).
  - step; [apply poll_replays|intros _].
    step; [apply sleep_replays|intros _]. exact IH.
Qed.

Lemma on_interrupt_replays : keeps replays (on_interrupt w).
Proof.
  unfold on_interrupt. step; [apply iterate_replays|intros ids]. cbv zeta.
  step; [apply log_replays|intros _].
  case_bool_decide; [|apply log_replays].
  step; [apply log_replays|intros _]. apply kill_loop_replays.
Qed.

Lemma infinite_poll_replays interval fuel :
  keeps replays (infinite_poll w interval fuel).
Proof.
  unfold infinite_poll.
  apply (keeps_try replays replays_trans);
    [apply while_true_replays|].
  intros [] h [= <-]. apply on_interrupt_replays.
Qed.

Lemma call_replays c st : replays st (snd (call w c st)).
Proof.
  revert st. change (keeps replays (call w c)).
  destruct c as [| |job_id| |interval fuel]; simpl.
  - apply poll_replays.
  - step; [apply submit_job_replays|intros; step].
  - step; [apply kill_job_replays|intros; step].
  - step; [apply get_submitted_job_info_replays|intros; step].
  - apply infinite_poll_replays.
Qed.

Lemma after_calls_replays_from st0 calls : forall st,
  replays st0 st -> replays st0 (after_calls w calls st).
Proof.
  induction calls as [|c calls IH]; intros st Hst; [done|].
  simpl. apply IH. eapply replays_trans; [exact Hst|]. apply call_replays.
Qed.

(** From the creation of the manager on, the registry is the replay of
    the trace, and every kill request was for a tracked id. *)
Lemma after_calls_replays profile profile_dir n_wanted max_n_queued verbose calls :
  let st := after_calls w calls
              (__init__ w profile profile_dir n_wanted max_n_queued verbose) in
  jobs st = replay ∅ (trace st) /\ kills_tracked ∅ (trace st).
Proof.
  cbv zeta.
  destruct (after_calls_replays_from
              (__init__ w profile profile_dir n_wanted max_n_queued verbose) calls
              _ (replays_refl _)) as (evs & Ht & Hj & Hk).
  simpl in Ht, Hj, Hk. by rewrite Ht, Hj.
Qed.

(** *** What comes after *)

Lemma follows_refl st : follows st st.
Proof. apply replays_follows, replays_refl. Qed.

Lemma follows_trans st1 st2 st3 :
  follows st1 st2 -> follows st2 st3 -> follows st1 st3.
Proof.
  intros (evs1 & Ht1 & Hj1) (evs2 & Ht2 & Hj2). exists (evs1 ++ evs2).
  split; [by rewrite Ht2, Ht1, app_assoc|].
  rewrite successes_app, list_to_set_app_L. set_solver.
Qed.

Lemma call_follows c st : follows st (snd (call w c st)).
Proof. apply replays_follows, call_replays. Qed.

Lemma elem_of_successes x evs : x ∈ successes evs <-> x > 0 /\ x ∈ attempts evs.
Proof.
  exact (list_elem_of_filter (fun job_id => job_id > 0) (attempts evs) x).
Qed.

Lemma registry_closed_follows st st' :
  registry_closed st -> follows st st' -> registry_closed st'.
Proof.
  intros Hc (evs & Ht & Hj) job_id Hin. rewrite Ht, attempts_app, elem_of_app.
  apply Hj in Hin. apply elem_of_union in Hin as [Hin|Hin].
  - destruct (Hc _ Hin). tauto.
  - apply elem_of_list_to_set, elem_of_successes in Hin. tauto.
Qed.

End Replay.

(** ** The infinite loop and its interrupt handler *)

Section Interrupt.

Variable w : World.

(** The loop never returns: it goes on, or something is raised. *)
Lemma while_true_never_returns interval fuel : forall st a,
  fst (while_true w interval fuel st) <> Return a.
Proof.
  induction fuel as [|fuel IH]; intros st a; [done|].
  simpl. unfold bind at 1.
  destruct (poll w st) as [[[]|e|] st1]; [|done..].
  unfold bind. destruct (sleep w interval st1) as [[[]|e|] st2]; [|done..].
  apply IH.
Qed.



(** The handler sends one kill request to every member of the registry,
    whatever the earlier requests did, and returns. *)
Lemma on_interrupt_drains st :
  exists st_end, on_interrupt w st = (Return tt, st_end) /\ drained w st st_end.
Proof.
  unfold drained. cbv zeta.
  set (ids := registry_order w st).
  assert (Hmem : forall job_id, job_id ∈ ids <-> job_id ∈ jobs st)
    by (intros job_id; apply elem_of_iteration).
  assert (Hnd : NoDup ids) by apply NoDup_iteration.
  destruct (bool_decide (len ids > 0)) eqn:Hn.
  - destruct (kill_loop_runs w ids
                (upd st (jobs st) [EvLog LogBlank; EvLog (LogCancelling ids)]) Hnd)
      as (evs_kill & Hrun & Hkills & Honly).
    { intros x Hx. by apply Hmem. }
    assert (Hall : runs (on_interrupt w) st tt ∅
                     ([EvLog LogBlank] ++ [EvLog (LogCancelling ids)] ++ evs_kill)).
    { unfold on_interrupt.
      eapply runs_bind_quiet; [exact (runs_iterate w st)|]. cbv zeta.
      fold ids. rewrite Hn.
      eapply runs_bind; [apply runs_log|].
      eapply runs_bind; [apply runs_log|].
      rewrite upd_upd.
      replace (∅ : gset Z) with (jobs st ∖ list_to_set ids); [exact Hrun|].
      unfold ids, registry_order. rewrite list_to_set_iteration. set_solver. }
    eexists. split; [exact Hall|]. rewrite new_events_upd.
    split; [by exists evs_kill|].
    split; [by unfold kills at 1; simpl|].
    do 2 (split; [done|]).
    split; [unfold attempts; simpl; by apply only_kills_attempts|].
    split; [done|].
    intros Hempty. apply bool_decide_eq_true in Hn.
    unfold ids, registry_order in Hn. rewrite Hempty, iteration_empty in Hn.
    unfold len in Hn. simpl in Hn. lia.
  - apply bool_decide_eq_false in Hn.
    assert (Hnil : ids = [])
      by (destruct ids; [done|unfold len in Hn; simpl in Hn; lia]).
    assert (Hempty : jobs st = ∅).
    { apply set_eq. intros x. rewrite <- Hmem, Hnil. set_solver. }
    assert (Hall : runs (on_interrupt w) st tt ∅
                     ([EvLog LogBlank] ++ [EvLog LogExiting])).
    { unfold on_interrupt.
      eapply runs_bind_quiet; [exact (runs_iterate w st)|]. cbv zeta.
      fold ids. rewrite bool_decide_eq_false_2 by done.
      eapply runs_bind; [apply runs_log|].
      rewrite <- Hempty.
      exact (runs_log LogExiting (upd st (jobs st) [EvLog LogBlank])). }
    eexists. split; [exact Hall|]. rewrite new_events_upd.
    split; [exists []; split; [done|constructor]|].
    split; [rewrite Hnil; reflexivity|].
    do 2 (split; [done|]). do 2 (split; [reflexivity|]). done.
Qed.

(** How [infinite_poll] can end.  It returns only from its handler, which
    a [KeyboardInterrupt] that comes out of the loop has entered and
    which has drained the registry; any other exception that comes out
    of the loop goes on to the caller; otherwise the loop is still
    running. *)
Lemma infinite_poll_cases interval fuel st :
  let result := infinite_poll w interval fuel st in
  match fst result with
  | Return _ =>
      exists st_int,
        while_true w interval fuel st = (Raise KeyboardInterrupt, st_int) /\
        on_interrupt w st_int = (Return tt, snd result) /\
        drained w st_int (snd result)
  | Raise e =>
      e <> KeyboardInterrupt /\
      while_true w interval fuel st = (Raise e, snd result)
  | Unfinished => while_true w interval fuel st = (Unfinished, snd result)
  end.
Proof.
  cbv zeta. unfold infinite_poll, try_except.
  pose proof (while_true_never_returns interval fuel st) as Hnever.
  destruct (while_true w interval fuel st) as [[a|e|] st_int].
  - by destruct (Hnever a).
  - destruct e; try (simpl; split; [discriminate|reflexivity]).
    destruct (on_interrupt_drains st_int) as (st_end & Hrun & Hdrained).
    rewrite Hrun. simpl. by exists st_int.
  - reflexivity.
Qed.

End Interrupt.

(** ** The concrete run *)

Example demo_run :
  jobs demo0 = ∅ /\
  jobs demo1 = {[7; 8]} /\
  jobs demo2 = {[7; 8; 10; 11; 12]} /\
  jobs demo3 = {[7; 8; 12; 13; 14]} /\
  attempts (trace demo3) = [7; 8; -1; 10; 11; 12; 13; 14] /\
  kills (trace demo3) = [11; 10].
Proof. vm_compute. done. Qed.

(** ** The scenarios of the description *)

(** Nothing tracked, 3 wanted, at most 5 queued: three submissions. *)
Example scenario_empty_registry :
  let st := scenario_state 3 5 ∅ in
  let st' := snd (poll (scenario_world (fun _ => None) 99) st) in
  attempts (new_events st st') = [100; 101; 102] /\ jobs st' = {[100; 101; 102]}.
Proof. vm_compute. done. Qed.

(** 2 running and 1 queued of 3 wanted: no submission. *)
Example scenario_at_capacity :
  let st := scenario_state 3 5 {[1; 2; 3]} in
  let st' := snd (poll (scenario_world two_running_one_queued 99) st) in
  new_events st st' = [EvQuery] /\ jobs st' = {[1; 2; 3]}.
Proof. vm_compute. done. Qed.

(** 2 queued with at most 2 queued: no submission, whatever is wanted. *)
Example scenario_queue_cap :
  let st := scenario_state 5 2 {[1; 2]} in
  let st' := snd (poll (scenario_world two_queued 99) st) in
  new_events st st' = [EvQuery] /\ jobs st' = {[1; 2]}.
Proof. vm_compute. done. Qed.

(** 1 running and 1 queued, 5 wanted, at most 4 queued: min(3, 3) = 3. *)
Example scenario_deficit_and_headroom :
  let st := scenario_state 5 4 {[1; 2]} in
  let st' := snd (poll (scenario_world one_running_one_queued 99) st) in
  attempts (new_events st st') = [100; 101; 102].
Proof. vm_compute. done. Qed.

(** A tracked job of which the scheduler has no record is killed and
    removed. *)
Example scenario_missing_job :
  let st := scenario_state 1 1 {[1]} in
  let st' := snd (poll (scenario_world (fun _ => None) 0) st) in
  kills (new_events st st') = [1] /\ attempts (new_events st st') = [-1] /\
  jobs st' = ∅.
Proof. vm_compute. done. Qed.

(** The second of three submissions fails: the third is still made, and
    the registry grows by two. *)
Example scenario_failed_submission :
  let st := scenario_state 3 5 ∅ in
  let st' := snd (poll (scenario_world (fun _ => None) 1) st) in
  attempts (new_events st st') = [100; -1; 102] /\ jobs st' = {[100; 102]} /\
  logged (new_events st st')
    = [LogSubmit 0 0 3 3; LogSubmitted 1 3 100; LogSubmissionFailed 2 3;
       LogSubmitted 3 3 102].
Proof. vm_compute. done. Qed.

(** A tracked job of which the scheduler has no record is killed and
    removed; the submission that follows returns the same id, which is
    tracked again at the end of the cycle. *)
Example scenario_id_submitted_again :
  let st := scenario_state 1 1 {[5]} in
  let st' := snd (poll same_id st) in
  job_table same_id (trace st) 5 = None /\
  kills (new_events st st') = [5] /\
  successes (new_events st st') = [5] /\
  jobs st' = {[5]}.
Proof. vm_compute. done. Qed.

(** The interrupt arrives in the second sleep of the concrete run: the
    five tracked jobs get a kill request each, the one for job 10 raises
    and the requests after it are sent all the same. *)
Example interrupt_on_concrete_run :
  let st_int := snd (while_true interrupted_in_sleep 30 5 demo0) in
  let st_end := snd (infinite_poll interrupted_in_sleep 30 5 demo0) in
  fst (while_true interrupted_in_sleep 30 5 demo0) = Raise KeyboardInterrupt /\
  jobs st_int = {[7; 8; 10; 11; 12]} /\
  fst (infinite_poll interrupted_in_sleep 30 5 demo0) = Return tt /\
  new_events st_int st_end
    = [EvLog LogBlank; EvLog (LogCancelling [7; 8; 10; 11; 12]);
       EvKill 7 false; EvKill 8 false; EvKill 10 true; EvKill 11 false;
       EvKill 12 false] /\
  jobs st_end = ∅.
Proof. vm_compute. done. Qed.

(** The scheduler query of the third cycle raises: the error leaves
    [infinite_poll], the handler does not run and the five tracked jobs
    stay in the registry. *)
Example query_error_on_concrete_run :
  let st_end := snd (infinite_poll scheduler_down 30 5 demo0) in
  fst (infinite_poll scheduler_down 30 5 demo0) = Raise SlurmError /\
  jobs st_end = {[7; 8; 10; 11; 12]} /\
  kills (trace st_end) = [].
Proof. vm_compute. done. Qed.

(** ** The lists of [get_submitted_job_info] *)

Section JobInfo.

Variable w : World.

Lemma branch_unlisted job_state :
  branch (Some job_state) = Unlisted <-> job_state ∉ recognised.
Proof.
  unfold branch, recognised. rewrite !not_elem_of_cons.
  repeat case_decide; set_solver.
Qed.

Lemma branch_running job_state :
  branch (Some job_state) = Running
  <-> job_state ∈ [JobState.RUNNING; JobState.SUSPENDED].
Proof.
  unfold branch. case_decide; [done|]. split; [|done].
  repeat case_decide; done.
Qed.

Lemma branch_queued job_state :
  branch (Some job_state) = Queued <-> job_state = JobState.PENDING.
Proof.
  unfold branch. case_decide as Hrun.
  - split; [done|]. intros ->.
    apply list_elem_of_In in Hrun. simpl in Hrun.
    destruct Hrun as [?|[?|[]]]; discriminate.
  - case_decide; [done|]. split; [|done]. case_decide; done.
Qed.

Lemma branch_completed job_state :
  branch (Some job_state) = Completed
  <-> job_state ∈ [JobState.COMPLETED; JobState.COMPLETING; JobState.TIMEOUT].
Proof.
  unfold branch. case_decide as Hrun; [|case_decide as Hpend].
  - split; [done|]. intros Hdone.
    apply list_elem_of_In in Hrun, Hdone. simpl in Hrun, Hdone.
    destruct Hdone as [<-|[<-|[<-|[]]]]; destruct Hrun as [?|[?|[]]]; discriminate.
  - split; [done|]. intros Hdone. subst job_state.
    apply list_elem_of_In in Hdone. simpl in Hdone.
    destruct Hdone as [?|[?|[?|[]]]]; discriminate.
  - case_decide; [done|]. split; done.
Qed.

Lemma elem_of_anomalies slurm_jobs ids job_id job_state :
  job_id ∈ ids -> slurm_jobs job_id = Some job_state ->
  job_state ∉ recognised ->
  EvLog (LogUnknownState job_state job_id) ∈ anomalies slurm_jobs ids.
Proof.
  intros Hin Hst Hun. unfold anomalies. apply list_elem_of_omap.
  exists job_id. split; [done|]. rewrite Hst.
  rewrite decide_True; [done|]. by apply branch_unlisted.
Qed.

Lemma get_info_unanswered st :
  ~ query_answers w st ->
  exists e st1,
    get_submitted_job_info w st = (Raise e, st1) /\
    (e = SlurmError \/ e = KeyboardInterrupt) /\ jobs st1 = jobs st.
Proof.
  intros Hq.
  destruct (get_submitted_job_info_unanswered w st Hq) as (e & evs & Hends & He & _).
  exists e. eexists. split; [exact Hends|]. by split.
Qed.

(** C9.  In every state and every world, [get_submitted_job_info]
    either returns four lists or raises what the scheduler query raised.
    When the scheduler answers it returns, and the four lists (running,
    queued, completed, missing) have no duplicates, are pairwise
    disjoint, and hold only members of the registry as it is when the
    query is made.  When the scheduler does not answer, it returns no
    list: the exception of the query goes on to the caller, the registry
    being as it was. *)
Theorem job_info_lists_disjoint st :
  (query_answers w st ->
   exists r q c m st1,
     get_submitted_job_info w st = (Return (r, q, c, m), st1) /\
     NoDup r /\ NoDup q /\ NoDup c /\ NoDup m /\
     (forall x, x ∈ r -> (x ∉ q) /\ (x ∉ c) /\ x ∉ m) /\
     (forall x, x ∈ q -> (x ∉ c) /\ x ∉ m) /\
     (forall x, x ∈ c -> x ∉ m) /\
     (forall x, x ∈ r \/ x ∈ q \/ x ∈ c \/ x ∈ m -> x ∈ jobs st)) /\
  (~ query_answers w st ->
   exists e st1,
     get_submitted_job_info w st = (Raise e, st1) /\
     (e = SlurmError \/ e = KeyboardInterrupt) /\ jobs st1 = jobs st).
Proof.
  split; [|apply get_info_unanswered].
  intros Hq.
  set (slurm_jobs := job_table w (trace st)).
  set (ids := query_order w st).
  exists (taking slurm_jobs Running ids), (taking slurm_jobs Queued ids),
    (taking slurm_jobs Completed ids), (taking slurm_jobs Missing ids).
  eexists. split; [exact (get_submitted_job_info_runs w st Hq)|].
  assert (Hnd : NoDup ids) by apply NoDup_query_order.
  do 4 (split; [by apply NoDup_taking|]).
  split; [|split; [|split]].
  - intros x Hx. repeat split; by eapply taking_disjoint; [|exact Hx].
  - intros x Hx. repeat split; by eapply taking_disjoint; [|exact Hx].
  - intros x Hx. by eapply taking_disjoint; [|exact Hx].
  - intros x Hx. apply (elem_of_query_order w st).
    destruct Hx as [Hx|[Hx|[Hx|Hx]]]; by apply elem_of_taking in Hx as [_ ?].
Qed.

(** C4, as the code has it.  When the scheduler answers the query,
    [get_submitted_job_info] returns, and for every tracked id: no record
    puts it in the missing list only; RUNNING or SUSPENDED in the running
    list only; PENDING in the queued list only; COMPLETED, COMPLETING or
    TIMEOUT in the completed list only; any other token puts it in none
    of the four lists and logs the token and the id.  When the scheduler
    does not answer, no id is sorted: the exception of the query goes on
    to the caller. *)
Theorem job_info_classification st :
  (query_answers w st ->
   exists r q c m st1,
     get_submitted_job_info w st = (Return (r, q, c, m), st1) /\
     forall job_id, job_id ∈ jobs st ->
       match job_table w (trace st) job_id with
       | None => only_in job_id m r q c
       | Some job_state =>
           (job_state ∈ [JobState.RUNNING; JobState.SUSPENDED] ->
              only_in job_id r q c m) /\
           (job_state = JobState.PENDING -> only_in job_id q r c m) /\
           (job_state ∈ [JobState.COMPLETED; JobState.TIMEOUT;
                         JobState.COMPLETING] -> only_in job_id c r q m) /\
           (job_state ∉ recognised ->
              (job_id ∉ r) /\ (job_id ∉ q) /\ (job_id ∉ c) /\ (job_id ∉ m) /\
              EvLog (LogUnknownState job_state job_id) ∈ new_events st st1)
       end) /\
  (~ query_answers w st ->
   exists e st1,
     get_submitted_job_info w st = (Raise e, st1) /\
     (e = SlurmError \/ e = KeyboardInterrupt) /\ jobs st1 = jobs st).
Proof.
  split; [|apply get_info_unanswered].
  intros Hq.
  set (slurm_jobs := job_table w (trace st)).
  set (ids := query_order w st).
  exists (taking slurm_jobs Running ids), (taking slurm_jobs Queued ids),
    (taking slurm_jobs Completed ids), (taking slurm_jobs Missing ids).
  eexists. split; [exact (get_submitted_job_info_runs w st Hq)|].
  rewrite new_events_upd. fold slurm_jobs ids.
  intros job_id Hin%(elem_of_query_order w st). fold ids in Hin.
  assert (Hsort : forall b b', branch (slurm_jobs job_id) = b ->
            job_id ∈ taking slurm_jobs b' ids <-> b' = b).
  { intros b b' Hb. rewrite elem_of_taking. split; [intros [? _]|]; by subst. }
  destruct (slurm_jobs job_id) as [job_state|] eqn:Hst.
  - split; [|split; [|split]].
    + intros Hrun%branch_running.
      unfold only_in. rewrite !(Hsort _ _ Hrun). done.
    + intros ->. unfold only_in. rewrite !(Hsort Queued) by done. done.
    + intros Hdone.
      assert (Hb : branch (Some job_state) = Completed).
      { apply branch_completed. set_solver. }
      unfold only_in. rewrite !(Hsort _ _ Hb). done.
    + intros Hun. pose proof Hun as Hb. apply branch_unlisted in Hb.
      rewrite !(Hsort _ _ Hb). repeat (split; [done|]).
      right. by apply elem_of_anomalies.
  - unfold only_in. rewrite !(Hsort Missing) by done. done.
Qed.

End JobInfo.

(** ** The clean-up of a cycle *)

Section CleanUp.

Variable w : World.

Lemma kills_split before job_id raised after :
  kills (before ++ EvKill job_id raised :: after)
  = kills before ++ job_id :: kills after.
Proof. by rewrite kills_app. Qed.

(** The kill requests of a cycle: none when the scheduler does not
    answer, those for the completed and the missing list when it does,
    all before the first submission attempt. *)
Lemma poll_kills st :
  let evs := new_events st (snd (poll w st)) in
  NoDup (kills evs) /\
  (forall x, x ∈ kills evs -> x ∈ jobs st) /\
  (forall before job_id raised after,
     evs = before ++ EvKill job_id raised :: after -> attempts before = []).
Proof.
  cbv zeta. destruct (query_answers_or_not w st) as [Hq|Hq].
  - destruct (poll_summary w st Hq)
      as (r & q & c & m & st1 & out & st' & evs_pre & evs_top & _ & Hb & Hpoll
          & Hev & _ & _ & Hk0 & Hatt0 & _ & Hk & _ & _).
    rewrite Hpoll. cbn [snd]. rewrite Hev, kills_app, Hk0, Hk, app_nil_r.
    symmetry in Hb. destruct (buckets_facts _ _ _ _ _ _ Hb) as (_ & _ & -> & ->).
    split; [apply NoDup_taking_app; [done|apply NoDup_query_order]|].
    split.
    + intros x. rewrite elem_of_app, !elem_of_taking, !elem_of_query_order. tauto.
    + intros before job_id raised after Hsplit. symmetry in Hsplit.
      apply app_eq_inv in Hsplit as [(k & -> & Htop)|(k & Hpre & _)].
      * rewrite Htop, kills_split in Hk. by destruct (kills k).
      * rewrite Hpre, attempts_app in Hatt0. by apply app_eq_nil in Hatt0 as [? _].
  - destruct (poll_unanswered w st Hq) as (e & evs & Hpoll & _ & Hk & Ha & _).
    unfold ends in Hpoll. rewrite Hpoll. cbn [snd]. rewrite new_events_upd, Hk.
    split; [constructor|]. split; [by intros x Hx%elem_of_nil|].
    intros before job_id raised after ->.
    rewrite attempts_app in Ha. by apply app_eq_nil in Ha as [? _].
Qed.

(** C10.  A cycle never ends with the [KeyError] of a removal from the
    registry.  Every kill request of a cycle is for an id that was in
    the registry when the cycle began and for which no kill request was
    sent earlier in the cycle; no submission was attempted before it, so
    that the id is still in the registry at that moment (the registry
    then is the one of the beginning, less the ids of the earlier kill
    requests).  No id gets two kill requests in a cycle; and when the
    scheduler answers, the kill requests are those for the completed
    list followed by the missing list. *)
Theorem cleanup_kills_members st :
  let st' := snd (poll w st) in
  let evs := new_events st st' in
  (forall key, fst (poll w st) <> Raise (KeyError key)) /\
  NoDup (kills evs) /\
  (forall before job_id raised after,
     evs = before ++ EvKill job_id raised :: after ->
     job_id ∈ jobs st /\ (job_id ∉ kills before) /\ attempts before = [] /\
     replay (jobs st) before = jobs st ∖ list_to_set (kills before) /\
     job_id ∈ replay (jobs st) before) /\
  (query_answers w st ->
   exists r q c m st1,
     get_submitted_job_info w st = (Return (r, q, c, m), st1) /\
     kills evs = c ++ m).
Proof.
  cbv zeta. destruct (poll_kills st) as (Hnd & Hsub & Hbefore). cbv zeta in *.
  split; [|split; [done|split]].
  - intros key Hkey. pose proof (poll_outcome w st) as Hout.
    rewrite Hkey in Hout. destruct Hout as [[_ [|]]|[_ [|]]]; discriminate.
  - intros before job_id raised after Hsplit.
    pose proof (Hbefore _ _ _ _ Hsplit) as Hatt.
    assert (Hin : job_id ∈ kills (new_events st (snd (poll w st)))).
    { rewrite Hsplit, kills_split. set_solver. }
    assert (Hfresh : job_id ∉ kills before).
    { rewrite Hsplit, kills_split in Hnd.
      apply NoDup_app in Hnd as (_ & Hnd & _). intros Hx.
      apply (Hnd _ Hx). by left. }
    destruct (poll_replays w st) as (evs & Ht & _ & Htracked).
    rewrite (new_events_app _ _ _ Ht) in Hsplit.
    pose proof (kills_tracked_split _ _ _ _ _ _ Htracked Hsplit) as Hmem.
    assert (Hreplay : replay (jobs st) before
                      = jobs st ∖ list_to_set (kills before)).
    { clear -Hatt. revert Hatt. generalize (jobs st).
      induction before as [|e before IH]; intros J Hatt.
      - simpl. set_solver.
      - change (replay J (e :: before)) with (replay (replay_event J e) before).
        destruct e as [| |job_id raised| |cmd job_id| | | |]; try done;
          try (exact (IH J Hatt)).
        rewrite (IH _ Hatt). simpl. unfold kills. simpl. fold (kills before).
        set_solver. }
    split; [by apply Hsub|]. split; [done|]. split; [done|]. split; [done|].
    done.
  - intros Hq.
    destruct (poll_summary w st Hq)
      as (r & q & c & m & st1 & out & st' & evs_pre & evs_top & Hinfo & _ & Hpoll
          & Hev & _ & _ & Hk0 & _ & _ & Hk & _ & _).
    exists r, q, c, m, st1. split; [done|].
    rewrite Hpoll. cbn [snd]. by rewrite Hev, kills_app, Hk0, Hk, app_nil_r.
Qed.

End CleanUp.

(** ** The cycle as a whole *)

Section Reconciliation.

Variable w : World.

Lemma cycle_events st st' evs_pre evs_top :
  new_events st st' = evs_pre ++ evs_top ->
  attempts evs_pre = [] -> write_failures evs_pre = [] ->
  attempts (new_events st st') = attempts evs_top /\
  successes (new_events st st') = successes evs_top /\
  write_failures (new_events st st') = write_failures evs_top.
Proof.
  intros -> Ha Hw. unfold successes.
  by rewrite attempts_app, write_failures_app, Ha, Hw.
Qed.

(** A cycle in which the scheduler does not answer does nothing but
    raise. *)
Lemma poll_idle st :
  ~ query_answers w st ->
  exists e st',
    poll w st = (Raise e, st') /\
    (e = SlurmError \/ e = KeyboardInterrupt) /\
    kills (new_events st st') = [] /\
    attempts (new_events st st') = [] /\
    jobs st' = jobs st.
Proof.
  intros Hq.
  destruct (poll_unanswered w st Hq) as (e & evs & Hends & He & Hk & Ha & _).
  exists e. eexists. split; [exact Hends|]. rewrite new_events_upd. by repeat split.
Qed.


(** C7.  In every cycle in which the scheduler answers: the running list
    holds exactly the tracked ids that the scheduler reports as RUNNING
    or SUSPENDED and the queued list those it reports as PENDING, each
    once; the completed and the missing list together hold exactly the
    tracked ids that it reports as COMPLETED, COMPLETING or TIMEOUT or
    of which it has no record.  All the kill requests of the clean-up
    come before every submission attempt of the top-up; the clean-up
    kills exactly the completed and the missing ids, none of which is in
    the running or the queued list, and every running or queued id is
    still in the registry after it.  The number of attempts is the one
    planned from the lengths of the running and the queued list (never
    more, and exactly that number when the cycle returns).  In a cycle in
    which the scheduler does not answer there is no clean-up and no
    top-up; so that in every cycle, after a submission attempt no kill
    request is sent. *)
Theorem cleanup_before_top_up st :
  (forall before slurm_command job_id after,
     new_events st (snd (poll w st))
       = before ++ EvSbatch slurm_command job_id :: after ->
     kills after = []) /\
  (~ query_answers w st ->
   exists e st',
     poll w st = (Raise e, st') /\
     (e = SlurmError \/ e = KeyboardInterrupt) /\
     kills (new_events st st') = [] /\
     attempts (new_events st st') = [] /\
     jobs st' = jobs st) /\
  (query_answers w st ->
  exists r q c m st1 out st' evs_pre evs_top,
    get_submitted_job_info w st = (Return (r, q, c, m), st1) /\
    poll w st = (out, st') /\
    (forall x, x ∈ r <->
       x ∈ jobs st /\
       exists job_state, job_table w (trace st) x = Some job_state /\
                         job_state ∈ [JobState.RUNNING; JobState.SUSPENDED]) /\
    (forall x, x ∈ q <->
       x ∈ jobs st /\ job_table w (trace st) x = Some JobState.PENDING) /\
    (forall x, x ∈ c ++ m <->
       x ∈ jobs st /\
       (job_table w (trace st) x = None \/
        exists job_state, job_table w (trace st) x = Some job_state /\
                          job_state ∈ [JobState.COMPLETED; JobState.COMPLETING;
                                       JobState.TIMEOUT])) /\
    NoDup r /\ NoDup q /\ NoDup (c ++ m) /\
    new_events st st' = evs_pre ++ evs_top /\
    kills evs_pre = c ++ m /\
    attempts evs_pre = [] /\
    kills evs_top = [] /\
    (length (attempts evs_top)
      <= Z.to_nat (planned (n_wanted (self st)) (max_n_queued (self st))
                           (len r) (len q)))%nat /\
    (out = Return tt <->
       length (attempts evs_top)
       = Z.to_nat (planned (n_wanted (self st)) (max_n_queued (self st))
                           (len r) (len q))
       /\ write_failures evs_top = []) /\
    (calm_writes w -> out = Return tt) /\
    (forall x, x ∈ c ++ m -> (x ∉ r) /\ x ∉ q) /\
    (forall x, x ∈ r ++ q -> x ∈ jobs st ∖ list_to_set (c ++ m)) /\
    jobs st' = jobs st ∖ list_to_set (c ++ m) ∪ list_to_set (successes evs_top)).
Proof.
  split; [|split; [apply poll_idle|]].
  { intros before slurm_command job_id after Hsplit.
    destruct (query_answers_or_not w st) as [Hq|Hq].
    - destruct (poll_summary w st Hq)
        as (r & q & c & m & st1 & out & st' & evs_pre & evs_top & _ & _ & Hpoll
            & Hev & _ & _ & _ & Hatt0 & _ & Hk & _ & _).
      rewrite Hpoll in Hsplit. cbn [snd] in Hsplit. rewrite Hev in Hsplit.
      apply app_eq_inv in Hsplit as [(k & Hpre & Htop)|(k & _ & Htop)].
      + destruct k as [|e k]; simpl in Htop.
        * rewrite <- Htop in Hk. exact Hk.
        * injection Htop as <- _. rewrite Hpre, attempts_app in Hatt0.
          apply app_eq_nil in Hatt0 as [_ Hatt0]. discriminate.
      + rewrite Htop, kills_app in Hk.
        apply app_eq_nil in Hk as [_ Hk]. exact Hk.
    - destruct (poll_idle st Hq) as (e & st' & Hpoll & _ & _ & Ha & _).
      rewrite Hpoll in Hsplit. cbn [snd] in Hsplit.
      rewrite Hsplit, attempts_app in Ha.
      apply app_eq_nil in Ha as [_ Ha]. discriminate. }
  intros Hq.
  destruct (poll_summary w st Hq)
    as (r & q & c & m & st1 & out & st' & evs_pre & evs_top & Hinfo & Hb & Hpoll
        & Hev & _ & _ & Hk0 & Hatt0 & _ & Hk & Hbatch & Hjobs).
  exists r, q, c, m, st1, out, st', evs_pre, evs_top.
  do 2 (split; [done|]).
  pose proof (batch_outcome_facts w _ _ _ Hbatch) as (Hle & Hiff & _ & Hcalm).
  symmetry in Hb. destruct (buckets_facts _ _ _ _ _ _ Hb) as (-> & -> & -> & ->).
  set (slurm_jobs := job_table w (trace st)) in *.
  set (ids := query_order w st) in *.
  assert (Hids : forall x, x ∈ ids <-> x ∈ jobs st)
    by (intros x; apply elem_of_query_order).
  assert (Hnd : NoDup ids) by apply NoDup_query_order.
  split.
  { intros x. rewrite elem_of_taking, Hids. split.
    - intros [Hbr Hin]. split; [done|].
      destruct (slurm_jobs x) as [job_state|]; [|done].
      exists job_state. split; [done|]. by apply branch_running.
    - intros [Hin (job_state & -> & Hst)]. split; [|done].
      by apply branch_running. }
  split.
  { intros x. rewrite elem_of_taking, Hids. split.
    - intros [Hbr Hin]. split; [done|].
      destruct (slurm_jobs x) as [job_state|]; [|done].
      f_equal. by apply branch_queued.
    - intros [Hin ->]. done. }
  split.
  { intros x. rewrite elem_of_app, !elem_of_taking, Hids. split.
    - intros [[Hbr Hin]|[Hbr Hin]]; (split; [done|]).
      + destruct (slurm_jobs x) as [job_state|]; [|done].
        right. exists job_state. split; [done|]. by apply branch_completed.
      + destruct (slurm_jobs x) as [job_state|]; [|by left].
        unfold branch in Hbr. by repeat case_decide.
    - intros [Hin [->|(job_state & -> & Hst)]]; [by right|].
      left. split; [|done]. by apply branch_completed. }
  do 2 (split; [by apply NoDup_taking|]).
  split; [by apply NoDup_taking_app|].
  do 7 (split; [done|]).
  split; [|split; [|done]].
  - intros x [Hx|Hx]%elem_of_app; split;
      by eapply taking_disjoint; [|exact Hx].
  - intros x Hx. apply elem_of_difference. split.
    + apply Hids.
      apply elem_of_app in Hx as [Hx|Hx]; by apply elem_of_taking in Hx as [_ ?].
    + rewrite elem_of_list_to_set.
      intros [Hy|Hy]%elem_of_app;
        apply elem_of_app in Hx as [Hx|Hx];
        by eapply taking_disjoint; [| exact Hx | exact Hy].
Qed.

End Reconciliation.

(** ** What a cycle leaves in the registry *)

Section CycleOutcome.

Variable w : World.

Lemma size_list_to_set_le (l : list Z) :
  (size (list_to_set l : gset Z) <= length l)%nat.
Proof.
  induction l as [|x l IH].
  - change (size (∅ : gset Z) <= 0)%nat. by rewrite size_empty.
  - change (size ({[x]} ∪ list_to_set l : gset Z) <= S (length l))%nat.
    rewrite size_union_alt, size_singleton.
    assert (size (list_to_set l ∖ {[x]} : gset Z) <= size (list_to_set l : gset Z))%nat
      by (apply subseteq_size; set_solver).
    lia.
Qed.


(** C2, as the code has it.  In every cycle in which the scheduler
    answers, a tracked id of which the scheduler has no record gets a
    kill request and is removed: it is absent from the registry at the
    end of the cycle, unless a submission of that very cycle returned
    the same id again.  A tracked id whose state token is present but not
    recognised is logged, gets no kill request and is still in the
    registry at the end of the cycle.  The cycle returns unless writing
    the job file raises, after the clean-up.  In a cycle in which the
    scheduler does not answer no job is classified: the cycle raises, no
    kill request is sent and the id stays in the registry. *)
Theorem poll_cleans_missing st job_id :
  job_id ∈ jobs st ->
  (query_answers w st ->
   exists out st',
     poll w st = (out, st') /\
     (out = Return tt \/ out = Raise IOError \/ out = Raise KeyboardInterrupt) /\
     (calm_writes w -> out = Return tt) /\
     let evs := new_events st st' in
     (job_table w (trace st) job_id = None ->
        job_id ∈ kills evs /\
        (job_id ∉ successes evs -> job_id ∉ jobs st')) /\
     (forall job_state,
        job_table w (trace st) job_id = Some job_state ->
        job_state ∉ recognised ->
        EvLog (LogUnknownState job_state job_id) ∈ evs /\
        (job_id ∉ kills evs) /\ job_id ∈ jobs st')) /\
  (~ query_answers w st ->
   exists e st',
     poll w st = (Raise e, st') /\
     (e = SlurmError \/ e = KeyboardInterrupt) /\
     kills (new_events st st') = [] /\ job_id ∈ jobs st').
Proof.
  intros Hin. split; [intros Hq|].
  2: { intros Hq. destruct (poll_idle w st Hq) as (e & st' & Hpoll & He & Hk & _ & Hj).
       exists e, st'. by rewrite Hj. }
  destruct (poll_summary w st Hq)
    as (r & q & c & m & st1 & out & st' & evs_pre & evs_top & Hinfo & Hb & Hpoll
        & Hev & Hev1 & Hpre & Hk0 & Hatt0 & Hw0 & Hk & Hbatch & Hjobs).
  exists out, st'. split; [done|].
  pose proof (batch_outcome_facts w _ _ _ Hbatch) as (_ & _ & Hcases & Hcalm).
  do 2 (split; [done|]). cbv zeta.
  destruct (cycle_events _ _ _ _ Hev Hatt0 Hw0) as (_ & -> & _).
  rewrite Hev, kills_app, Hk0, Hk, app_nil_r.
  symmetry in Hb. destruct (buckets_facts _ _ _ _ _ _ Hb) as (_ & _ & -> & ->).
  apply (elem_of_query_order w st) in Hin. split.
  - intros Hnone.
    assert (Hm : job_id ∈ taking (job_table w (trace st)) Missing
                             (query_order w st))
      by (apply elem_of_taking; by rewrite Hnone).
    split; [apply elem_of_app; by right|].
    intros Hfresh. rewrite Hjobs, elem_of_union, elem_of_difference.
    rewrite !elem_of_list_to_set, elem_of_app. tauto.
  - intros job_state Hst Hun.
    assert (Hbr : branch (job_table w (trace st) job_id) = Unlisted)
      by (rewrite Hst; by apply branch_unlisted).
    assert (Hout : job_id ∉ taking (job_table w (trace st)) Completed
                                   (query_order w st)
                            ++ taking (job_table w (trace st)) Missing
                                      (query_order w st)).
    { rewrite elem_of_app, !elem_of_taking. rewrite Hbr.
      intros [[? _]|[? _]]; discriminate. }
    split; [|split; [done|]].
    + apply elem_of_app. left. apply Hpre. rewrite Hev1. right.
      by apply elem_of_anomalies.
    + rewrite Hjobs, elem_of_union, elem_of_difference.
      rewrite elem_of_list_to_set. apply elem_of_query_order in Hin. tauto.
Qed.

End CycleOutcome.

(** ** [kill_job] outside the clean-up *)

Section Kill.

Variable w : World.

(** C3, as the code has it.  [kill_job] on an id that is not in the
    registry raises [KeyError] (from the [remove] of the set) before
    any kill request is sent, and changes nothing.  On an id that is in
    the registry it never raises: it removes the id, sends one kill
    request, and returns [False] exactly when that request raised, be it
    an error of the scheduler or the interrupt arriving during the
    request. *)
Theorem kill_job_outcome job_id st :
  (job_id ∉ jobs st ->
     kill_job w job_id st = (Raise (KeyError job_id), st)) /\
  (job_id ∈ jobs st ->
     let interrupted := sigint w (trace st) (InKill job_id) in
     let raised := interrupted || pyslurm_kill_raises w (trace st) job_id in
     exists st',
       kill_job w job_id st = (Return (negb raised), st') /\
       jobs st' = jobs st ∖ {[job_id]} /\
       new_events st st'
         = (if interrupted then [EvSigint] else []) ++ [EvKill job_id raised]).
Proof.
  split; intros Hin.
  - by apply kill_job_absent.
  - cbv zeta. eexists. split; [exact (kill_job_member w job_id st Hin)|].
    by rewrite new_events_upd.
Qed.

End Kill.

(** ** The closure of the registry *)

Section Shutdown.

Variable w : World.

(** C5.  Whatever methods are called on a manager after its creation,
    and whatever they return or raise, every id in the registry is
    positive and was returned by an earlier submission of this manager;
    and no single call adds to the registry anything but the ids that
    its own successful submissions returned. *)
Theorem registry_closure profile profile_dir n_wanted max_n_queued verbose calls :
  registry_closed
    (after_calls w calls
       (__init__ w profile profile_dir n_wanted max_n_queued verbose)) /\
  (forall st c, follows st (snd (call w c st))).
Proof.
  split; [|intros st c; apply call_follows].
  assert (Hinit : registry_closed
                    (__init__ w profile profile_dir n_wanted max_n_queued verbose))
    by (intros job_id Hin; unfold jobs in Hin; simpl in Hin; set_solver).
  revert Hinit.
  generalize (__init__ w profile profile_dir n_wanted max_n_queued verbose).
  induction calls as [|c calls IH]; intros st Hst; [done|].
  simpl. apply IH. eapply registry_closed_follows; [exact Hst|].
  apply call_follows.
Qed.

End Shutdown.

(** ** Where the code departs from the description *)

(** A decidable fact about a concrete run, by evaluation. *)
Ltac decide_by_evaluation :=
  apply (bool_decide_unpack _); vm_compute; exact I.


(** C2 fails.  In the second cycle of the concrete run job 7 is tracked and
    the scheduler reports the state FAILED, which is not empty and not
    recognised; the cycle returns, sends no kill request for job 7 and
    leaves it in the registry. *)
Lemma unrecognised_state_not_cleaned :
  7 ∈ jobs demo1 /\
  job_table demo_world (trace demo1) 7 = Some "FAILED"%string /\
  ("FAILED"%string ∉ recognised) /\
  poll demo_world demo1 = (Return tt, demo2) /\
  (7 ∉ kills (new_events demo1 demo2)) /\
  7 ∈ jobs demo2.
Proof.
  split; [decide_by_evaluation|].
  split; [vm_compute; reflexivity|].
  split; [decide_by_evaluation|].
  split; [vm_compute; reflexivity|].
  split; decide_by_evaluation.
Qed.

(** C3 fails.  Job 5 is not in the registry of the fresh manager, and
    killing it raises [KeyError]. *)
Lemma kill_job_absent_raises :
  (5 ∉ jobs demo0) /\
  kill_job demo_world 5 demo0 = (Raise (KeyError 5), demo0).
Proof.
  split; [decide_by_evaluation|].
  vm_compute. reflexivity.
Qed.

(** C4 fails.  Job 7 is tracked and reported as FAILED; the four lists
    are [8], none, none, none: job 7 is in no list. *)
Lemma unrecognised_state_in_no_list :
  7 ∈ jobs demo1 /\
  job_table demo_world (trace demo1) 7 = Some "FAILED"%string /\
  fst (get_submitted_job_info demo_world demo1) = Return ([8], [], [], []).
Proof.
  split; [decide_by_evaluation|].
  split; vm_compute; reflexivity.
Qed.


(** C8 fails.  The interrupt arrives while the [sbatch] subprocess of the
    second submission of the first cycle runs.  The bare [except] of
    [slurm_submit] takes the [KeyboardInterrupt]: the submission is
    logged as failed, the third submission is made, the loop sleeps and
    runs a second cycle that submits three more jobs.  The handler never
    runs: no job is cancelled, four jobs are tracked, and after two
    turns the loop is still going.  The same happens when the interrupt
    arrives during a kill request of the clean-up, in the bare [except]
    of [kill_job]. *)
Theorem interrupt_swallowed_by_bare_except :
  (let result := infinite_poll interrupted_in_sbatch 30 2 demo0 in
   fst result = Unfinished /\
   jobs (snd result) = {[7; 10; 11; 12]} /\
   kills (trace (snd result)) = [] /\
   exists after,
     after_sigint (trace (snd result)) = Some after /\
     attempts after = [-1; -1; 10; 11; 12] /\
     sleeps after = [30; 30] /\
     logged after
       = [LogSubmissionFailed 2 3; LogSubmissionFailed 3 3;
          LogUnknownState "FAILED" 7; LogSubmit 0 0 4 3;
          LogSubmitted 1 3 10; LogSubmitted 2 3 11; LogSubmitted 3 3 12]) /\
  (let result := infinite_poll interrupted_in_kill 30 3 demo0 in
   fst result = Unfinished /\
   jobs (snd result) = {[7; 8; 12; 13; 14]} /\
   exists after,
     after_sigint (trace (snd result)) = Some after /\
     kills after = [11; 10] /\
     attempts after = [13; 14] /\
     sleeps after = [30] /\
     logged after
       = [LogCompleted [11]; LogMissing [10]; LogSubmit 1 1 4 2;
          LogSubmitted 1 2 13; LogSubmitted 2 2 14]).
Proof.
  split.
  - cbv zeta. split; [vm_compute; reflexivity|].
    split; [vm_compute; reflexivity|]. split; [vm_compute; reflexivity|].
    eexists. split; [vm_compute; reflexivity|]. vm_compute. done.
  - cbv zeta. split; [vm_compute; reflexivity|].
    split; [vm_compute; reflexivity|].
    eexists. split; [vm_compute; reflexivity|]. vm_compute. done.
Qed.

(** ** The properties on the concrete run *)

(** In the worlds of the concrete run and of the scenarios the scheduler
    always answers and the job file can always be written. *)
Lemma demo_world_answers st : query_answers demo_world st.
Proof. split; [reflexivity|]. split; [reflexivity|]. intros; reflexivity. Defined.

Lemma scenario_world_answers table fail_at st :
  query_answers (scenario_world table fail_at) st.
Proof. split; [reflexivity|]. split; [reflexivity|]. intros; reflexivity. Defined.

Lemma demo_world_calm : calm_writes demo_world.
Proof. intros tr filename. split; reflexivity. Defined.


(** In the third cycle job 10, of which the scheduler has no record, gets
    a kill request and leaves the registry. *)
Lemma poll_cleans_missing_witness :
  10 ∈ kills (new_events demo2 demo3) /\ (10 ∉ jobs demo3).
Proof.
  destruct (poll_cleans_missing demo_world demo2 10) as [Hcycle _].
  { decide_by_evaluation. }
  destruct (Hcycle (demo_world_answers demo2))
    as (out & st' & Hpoll & _ & _ & Hmissing & _).
  assert (st' = demo3) as -> by (unfold demo3; by rewrite Hpoll).
  cbv zeta in Hmissing. destruct Hmissing as [Hkill Hgone].
  { vm_compute; reflexivity. }
  split; [exact Hkill|]. apply Hgone. decide_by_evaluation.
Defined.

(** Killing job 10 while it is tracked: the request raises, [kill_job]
    returns [False] and the job is no longer tracked. *)
Lemma kill_job_outcome_witness :
  exists st', kill_job demo_world 10 demo2 = (Return false, st') /\
              jobs st' = jobs demo2 ∖ {[10]}.
Proof.
  destruct (kill_job_outcome demo_world 10 demo2) as [_ Hmember].
  destruct Hmember as (st' & Hkill & Hjobs & _).
  { decide_by_evaluation. }
  exists st'. split; [exact Hkill|exact Hjobs].
Defined.

(** Job 11, reported as COMPLETED, is in the completed list only. *)
Lemma job_info_classification_witness :
  exists r q c m,
    fst (get_submitted_job_info demo_world demo2) = Return (r, q, c, m) /\
    only_in 11 c r q m.
Proof.
  destruct (proj1 (job_info_classification demo_world demo2)
              (demo_world_answers demo2))
    as (r & q & c & m & st1 & Hinfo & Hclass).
  exists r, q, c, m. split; [by rewrite Hinfo|].
  specialize (Hclass 11).
  change (job_table demo_world (trace demo2) 11)
    with (Some JobState.COMPLETED) in Hclass.
  destruct Hclass as (_ & _ & Hcompleted & _).
  { decide_by_evaluation. }
  apply Hcompleted. decide_by_evaluation.
Defined.

(** The four lists of the third cycle have no duplicates. *)
Lemma job_info_lists_disjoint_witness :
  exists r q c m,
    fst (get_submitted_job_info demo_world demo2) = Return (r, q, c, m) /\
    NoDup r /\ NoDup q /\ NoDup c /\ NoDup m.
Proof.
  destruct (proj1 (job_info_lists_disjoint demo_world demo2)
              (demo_world_answers demo2))
    as (r & q & c & m & st1 & Hinfo & Hr & Hq & Hc & Hm & _).
  exists r, q, c, m. split; [by rewrite Hinfo|].
  exact (conj Hr (conj Hq (conj Hc Hm))).
Defined.


(** In the third cycle the kill requests for jobs 11 and 10 come before
    the two submissions, which were planned from one running and one
    queued job. *)
Lemma cleanup_before_top_up_witness :
  exists evs_pre evs_top,
    new_events demo2 demo3 = evs_pre ++ evs_top /\
    kills evs_pre = [11; 10] /\ attempts evs_pre = [] /\
    kills evs_top = [] /\ length (attempts evs_top) = 2%nat.
Proof.
  destruct (cleanup_before_top_up demo_world demo2) as (_ & _ & Hcycle).
  destruct (Hcycle (demo_world_answers demo2))
    as (r & q & c & m & st1 & out & st' & evs_pre & evs_top & Hinfo & Hpoll
        & _ & _ & _ & _ & _ & _ & Hev & Hk0 & Ha0 & Hk & _ & Hiff & Hcalm & _).
  assert (st' = demo3) as -> by (unfold demo3; by rewrite Hpoll).
  assert (Hr : fst (get_submitted_job_info demo_world demo2)
               = Return ([8], [12], [11], [10])) by (vm_compute; reflexivity).
  rewrite Hinfo in Hr. simpl in Hr. injection Hr as -> -> -> ->.
  exists evs_pre, evs_top.
  split; [exact Hev|]. split; [exact Hk0|]. split; [exact Ha0|].
  split; [exact Hk|].
  apply Hiff in Hcalm as [-> _]; [|exact demo_world_calm].
  vm_compute; reflexivity.
Defined.
(** * More of the program *)

(** ** Reading the output of [sbatch] *)

Example parse_job_id_examples :
  parse_job_id "Submitted batch job 4242
" = Some 4242 /\
  parse_job_id "Submitted batch job 4242" = Some 4242 /\
  parse_job_id "17" = Some 17 /\
  parse_job_id "job +17  " = Some 17 /\
  parse_job_id "job -17" = Some (-17) /\
  parse_job_id "job 0017" = Some 17 /\
  parse_job_id "" = None /\
  parse_job_id "
Submitted batch job 4242" = None /\
  parse_job_id "sbatch: error: invalid partition" = None /\
  parse_job_id "job 17L" = None /\
  parse_job_id "job -" = None /\
  split "  a  bc d " = ["a"; "bc"; "d"]%string /\
  split_on "010" "a
b
" = ("a", ["b"; ""])%string.
Proof. vm_compute. done. Qed.

Section SbatchOutput.

Lemma digit_pretty_N_char (d : N) :
  (d < 10)%N -> digit (pretty_N_char d) = Some (Z.of_N d).
Proof.
  intros Hd.
  assert (d = 0 \/ d = 1 \/ d = 2 \/ d = 3 \/ d = 4 \/ d = 5 \/ d = 6
          \/ d = 7 \/ d = 8 \/ d = 9)%N as Hcases by lia.
  repeat (destruct Hcases as [->|Hcases]; [reflexivity|]). by subst.
Qed.

(** Reading back the digits that the printer put in front of [s]. *)
Lemma digits_pretty_N_go (x : N) : forall s,
  digits 0 (pretty_N_go x s) = digits (Z.of_N x) s.
Proof.
  induction (N.lt_wf_0 x) as [x _ IH]; intros s.
  destruct (decide (x = 0%N)) as [->|Hx]; [done|].
  rewrite pretty_N_go_step by lia.
  rewrite IH by (apply N.div_lt; lia). simpl.
  rewrite digit_pretty_N_char by (apply N.mod_lt; lia).
  f_equal. rewrite (N.div_mod x 10) at 3 by done. lia.
Qed.

Lemma digits_pretty_N (x : N) : digits 0 (pretty x) = Some (Z.of_N x).
Proof.
  unfold pretty, pretty_N. case_decide as Hx; [by subst|].
  by rewrite digits_pretty_N_go.
Qed.

Lemma digit_not_space c d : digit c = Some d -> isspace c = false.
Proof.
  unfold digit. case_bool_decide as Hc; [intros _|done].
  rewrite <- (ascii_N_embedding c).
  assert (Hn : (48 <= N_of_ascii c <= 57)%N) by lia.
  assert (N_of_ascii c = 48 \/ N_of_ascii c = 49 \/ N_of_ascii c = 50
          \/ N_of_ascii c = 51 \/ N_of_ascii c = 52 \/ N_of_ascii c = 53
          \/ N_of_ascii c = 54 \/ N_of_ascii c = 55 \/ N_of_ascii c = 56
          \/ N_of_ascii c = 57)%N as Hcases by lia.
  repeat (destruct Hcases as [->|Hcases]; [reflexivity|]). by rewrite Hcases.
Qed.

Lemma digit_not_sign c d :
  digit c = Some d -> c ≠ "+"%char /\ c ≠ "-"%char.
Proof. intros Hd. split; intros ->; discriminate. Qed.

Lemma digits_no_space s : forall acc v,
  digits acc s = Some v -> Forall (fun c => isspace c = false) (chars s).
Proof.
  induction s as [|c s IH]; intros acc v Hv; [constructor|].
  simpl in Hv. destruct (digit c) as [d|] eqn:Hd; [|done].
  constructor; [by eapply digit_not_space|by eapply IH].
Qed.

(** [int] reads back what the decimal printer wrote. *)
Lemma int_pretty (n : Z) : int (pretty n) = Some n.
Proof.
  assert (Hpos : forall p : positive, int (pretty (N.pos p)) = Some (Z.pos p)).
  { intros p. pose proof (digits_pretty_N (N.pos p)) as Hd.
    destruct (pretty (N.pos p)) as [|c s] eqn:Hw; [done|].
    simpl in Hd. destruct (digit c) as [d|] eqn:Hc; [|done].
    destruct (digit_not_sign _ _ Hc) as [Hplus Hminus].
    unfold int. rewrite !decide_False by done. simpl. by rewrite Hc. }
  destruct n as [|p|p]; [done|apply Hpos|].
  change (pretty (Z.neg p)) with (String "-" (pretty (N.pos p))).
  pose proof (digits_pretty_N (N.pos p)) as Hd.
  unfold int. rewrite decide_False by done. rewrite decide_True by done.
  destruct (pretty (N.pos p)) as [|c s] eqn:Hw; [done|]. by rewrite Hd.
Qed.

Lemma pretty_no_space (n : Z) :
  pretty n ≠ EmptyString /\ Forall (fun c => isspace c = false) (chars (pretty n)).
Proof.
  assert (Hpos : forall p : positive,
            pretty (N.pos p) ≠ EmptyString /\
            Forall (fun c => isspace c = false) (chars (pretty (N.pos p)))).
  { intros p. pose proof (digits_pretty_N (N.pos p)) as Hd. split.
    - intros Hw. by rewrite Hw in Hd.
    - by eapply digits_no_space. }
  destruct n as [|p|p]; [by repeat constructor|apply Hpos|].
  change (pretty (Z.neg p)) with (String "-" (pretty (N.pos p))).
  split; [done|]. constructor; [done|apply Hpos].
Qed.

Lemma chars_app s1 s2 : chars (s1 +:+ s2) = chars s1 ++ chars s2.
Proof. induction s1 as [|c s1 IH]; [done|]. simpl. by rewrite <- IH. Qed.

Lemma split_words_word word :
  Forall (fun c => isspace c = false) (chars word) ->
  split_words word = (word, []).
Proof.
  induction word as [|c word IH]; intros Hw; [done|].
  apply Forall_cons in Hw as [Hc Hw]. simpl. by rewrite (IH Hw), Hc.
Qed.

Lemma split_words_blank blank :
  Forall (fun c => isspace c = true) (chars blank) ->
  split_words blank = (EmptyString, []).
Proof.
  induction blank as [|c blank IH]; intros Hb; [done|].
  apply Forall_cons in Hb as [Hc Hb]. simpl. by rewrite (IH Hb), Hc.
Qed.

(** A word that follows a separator at the end of a line is the last of
    the words of the line. *)
Lemma split_last before sp word :
  isspace sp = true -> word ≠ EmptyString ->
  Forall (fun c => isspace c = false) (chars word) ->
  last (split (before +:+ String sp word)) = Some word.
Proof.
  intros Hsp Hne Hword.
  assert (Hgo : exists w ws, split_words (before +:+ String sp word) = (w, ws)
                             /\ last ws = Some word).
  { induction before as [|c before IH].
    - simpl. rewrite (split_words_word _ Hword), Hsp.
      exists EmptyString, [word]. by destruct word.
    - destruct IH as (w & ws & Hsplit & Hlast). simpl. rewrite Hsplit.
      destruct (isspace c).
      + eexists _, _. split; [done|]. destruct w; [done|].
        destruct ws; [done|by rewrite last_cons, Hlast].
      + by eexists _, _. }
  destruct Hgo as (w & ws & Hsplit & Hlast). unfold split. rewrite Hsplit.
  destruct w; [done|]. destruct ws; [done|]. by rewrite last_cons, Hlast.
Qed.

Lemma split_on_no_separator sep line :
  sep ∉ chars line -> split_on sep line = (line, []).
Proof.
  induction line as [|c line IH]; intros Hsep; [done|].
  apply not_elem_of_cons in Hsep as [Hc Hsep]. simpl.
  rewrite (IH Hsep). by rewrite decide_False.
Qed.

Lemma split_on_first sep line rest :
  sep ∉ chars line -> fst (split_on sep (line +:+ String sep rest)) = line.
Proof.
  induction line as [|c line IH]; intros Hsep.
  - simpl. destruct (split_on sep rest). by rewrite decide_True.
  - apply not_elem_of_cons in Hsep as [Hc Hsep]. simpl.
    specialize (IH Hsep). destruct (split_on sep (line +:+ String sep rest)).
    rewrite decide_False by done. simpl in *. by subst.
Qed.

Lemma job_id_of_output_some fout :
  job_id_of_output (Some fout) = default (-1) (parse_job_id fout).
Proof. reflexivity. Qed.

Lemma string_app_assoc s1 s2 s3 : s1 +:+ (s2 +:+ s3) = (s1 +:+ s2) +:+ s3.
Proof.
  induction s1 as [|c s1 IH]; [done|].
  change (String c (s1 +:+ (s2 +:+ s3)) = String c ((s1 +:+ s2) +:+ s3)).
  by rewrite IH.
Qed.

Lemma parse_job_id_first_line line rest :
  "010"%char ∉ chars line ->
  parse_job_id (line +:+ String "010" rest) = parse_job_id line.
Proof.
  intros Hline. unfold parse_job_id.
  pose proof (split_on_first "010" line rest Hline) as Hfirst.
  destruct (split_on "010" (line +:+ String "010" rest)) as [first others].
  simpl in Hfirst. subst first. by rewrite (split_on_no_separator _ _ Hline).
Qed.

Lemma parse_job_id_last_word before n :
  "010"%char ∉ chars before ->
  parse_job_id (before +:+ String " " (pretty n)) = Some n.
Proof.
  intros Hbefore. destruct (pretty_no_space n) as [Hne Hword].
  unfold parse_job_id. rewrite split_on_no_separator.
  - rewrite split_last by done. apply int_pretty.
  - rewrite chars_app, not_elem_of_app. split; [done|].
    simpl. apply not_elem_of_cons. split; [done|].
    intros Hin. by apply (proj1 (Forall_forall _ _) Hword) in Hin.
Qed.

(** X1.  When the first line of what [sbatch] prints ends with a space and
    the decimal writing of an integer [n], as in [Submitted batch job n],
    [slurm_submit] returns [n], whatever follows the first line. *)
Theorem slurm_submit_reads_job_id before n rest :
  "010"%char ∉ chars before ->
  job_id_of_output (Some (before +:+ String " " (pretty n) +:+ String "010" rest))
    = n /\
  job_id_of_output (Some (before +:+ String " " (pretty n))) = n.
Proof.
  intros Hbefore. rewrite !job_id_of_output_some.
  rewrite (string_app_assoc before (String " " (pretty n)) (String "010" rest)).
  rewrite parse_job_id_first_line.
  - by rewrite parse_job_id_last_word.
  - destruct (pretty_no_space n) as [_ Hword].
    rewrite chars_app, not_elem_of_app. split; [done|].
    simpl. apply not_elem_of_cons. split; [done|].
    intros Hin. by apply (proj1 (Forall_forall _ _) Hword) in Hin.
Qed.

(** X2.  Only the first line of the output counts: what follows the first
    line feed does not change what [slurm_submit] returns. *)
Theorem slurm_submit_reads_first_line line rest :
  "010"%char ∉ chars line ->
  job_id_of_output (Some (line +:+ String "010" rest))
    = job_id_of_output (Some line).
Proof.
  intros Hline. rewrite !job_id_of_output_some.
  by rewrite parse_job_id_first_line.
Qed.

(** X3.  [slurm_submit] returns -1 when the subprocess could not be run,
    and when the first line of its output is empty or holds white space
    only, as when [sbatch] fails and prints on its error stream. *)
Theorem slurm_submit_without_job_id fout :
  Forall (fun c => isspace c = true) (chars (fst (split_on "010" fout))) ->
  job_id_of_output (Some fout) = -1 /\ job_id_of_output None = -1.
Proof.
  intros Hblank. split; [|done]. rewrite job_id_of_output_some.
  unfold parse_job_id. destruct (split_on "010" fout) as [line others].
  simpl in Hblank. unfold split. by rewrite (split_words_blank _ Hblank).
Qed.

Lemma slurm_submit_reads_job_id_witness :
  job_id_of_output (Some "Submitted batch job 4242
") = 4242.
Proof.
  apply (slurm_submit_reads_job_id "Submitted batch job" 4242 EmptyString).
  apply (bool_decide_unpack _). vm_compute. exact I.
Defined.

Lemma slurm_submit_reads_first_line_witness :
  job_id_of_output (Some "Submitted batch job 4242
sbatch: warning 17")
  = job_id_of_output (Some "Submitted batch job 4242").
Proof.
  apply (slurm_submit_reads_first_line "Submitted batch job 4242"
           "sbatch: warning 17").
  apply (bool_decide_unpack _). vm_compute. exact I.
Defined.

Lemma slurm_submit_without_job_id_witness :
  job_id_of_output (Some "  
Submitted batch job 4242") = -1.
Proof.
  apply (slurm_submit_without_job_id "  
Submitted batch job 4242").
  vm_compute. repeat constructor.
Defined.

End SbatchOutput.

(** ** The command line *)

Section CommandLine.

Variable w : World.

Lemma check_args_args argv :
  let n := default _DEFAULT_N_WANTED (flag_n argv) in
  let q := default _DEFAULT_MAX_N_QUEUED (flag_q argv) in
  check_args (get_args argv)
    = if bool_decide (n <= 0) then ArgsExit 1 ErrorNWanted
      else if bool_decide (q <= 0) then ArgsExit 1 ErrorMaxNQueued
      else ArgsOk (flag_profile argv) (flag_profile_dir argv) n q.
Proof.
  destruct argv as [[p|] [d|] [n|] [q|]]; reflexivity.
Qed.

(** X4.  [check_args] applied to what [get_args] returns never meets an
    empty list.  A size given on the command line is taken out of its
    one-element list, a size not given is the default (10 wanted, 20
    queued), and the same for the profile and its directory (default
    [None]).  The wanted size is checked first, then the queue size; a
    size below 1 ends the program with status 1. *)
Theorem check_args_of_get_args argv :
  let n := default _DEFAULT_N_WANTED (flag_n argv) in
  let q := default _DEFAULT_MAX_N_QUEUED (flag_q argv) in
  check_args (get_args argv)
    = if bool_decide (n <= 0) then ArgsExit 1 ErrorNWanted
      else if bool_decide (q <= 0) then ArgsExit 1 ErrorMaxNQueued
      else ArgsOk (flag_profile argv) (flag_profile_dir argv) n q.
Proof. apply check_args_args. Qed.

(** X5.  On any namespace, [check_args] raises [IndexError] exactly when
    one of the four attributes is an empty list, and it returns exactly
    when none is, and the two sizes (the first element of a list, or the
    value itself) are at least 1. *)
Theorem check_args_accepts config :
  (check_args config = ArgsIndexError <->
     Namespace.profile config = Listed []
     \/ Namespace.profile_dir config = Listed []
     \/ Namespace.n_wanted config = Listed []
     \/ Namespace.max_n_queued config = Listed []) /\
  (forall p d n q,
     check_args config = ArgsOk p d n q <->
       first_if_list (Namespace.profile config) = Some p /\
       first_if_list (Namespace.profile_dir config) = Some d /\
       first_if_list (Namespace.n_wanted config) = Some n /\
       first_if_list (Namespace.max_n_queued config) = Some q /\
       1 <= n /\ 1 <= q).
Proof.
  destruct config as [cp cd cn cq]. unfold check_args. simpl. split.
  - destruct cp as [p|[|p ?]], cd as [d|[|d ?]], cn as [n|[|n ?]],
      cq as [q|[|q ?]]; simpl;
      repeat case_bool_decide; naive_solver.
  - intros p d n q.
    destruct (first_if_list cp), (first_if_list cd), (first_if_list cn) as [n'|],
      (first_if_list cq) as [q'|];
      try (split; [done|by intros (? & ? & ? & ? & _)]).
    repeat case_bool_decide; split; try done.
    + intros (_ & _ & [= ->] & _ & ? & _). lia.
    + intros (_ & _ & _ & [= ->] & _ & ?). lia.
    + intros [= -> -> -> ->]. repeat split; lia.
    + by intros ([= ->] & [= ->] & [= ->] & [= ->] & _).
Qed.

(** X6.  When the wanted size or the queue size (given or default) is
    below 1, [main] ends with exit status 1 after one error line, the
    one about the wanted size when that size is below 1, the one about
    the queue size otherwise; no manager is created and the scheduler is
    never called. *)
Theorem main_rejects_sizes argv fuel :
  default _DEFAULT_N_WANTED (flag_n argv) <= 0
  \/ default _DEFAULT_MAX_N_QUEUED (flag_q argv) <= 0 ->
  main w argv fuel
  = MainExit 1 [if bool_decide (default _DEFAULT_N_WANTED (flag_n argv) <= 0)
                then ErrorNWanted else ErrorMaxNQueued].
Proof.
  intros Hbad. unfold main. cbv zeta.
  pose proof (check_args_args argv) as Hc. cbv zeta in Hc. rewrite Hc.
  repeat case_bool_decide; try lia; reflexivity.
Qed.

End CommandLine.

(** ** The registry and the trace *)

Section Accounting.

Variable w : World.

(** X7.  Whatever methods are called on a manager after its creation, its
    registry is what replaying its trace gives: the ids that a submission
    returned (when positive), minus those for which a kill request was
    sent since. *)
Theorem registry_replays_trace profile profile_dir n_wanted max_n_queued verbose calls :
  let st := after_calls w calls
              (__init__ w profile profile_dir n_wanted max_n_queued verbose) in
  jobs st = replay ∅ (trace st).
Proof. apply after_calls_replays. Qed.

(** X8.  Every kill request that a manager sends is for a job that is
    tracked at that moment: its id is positive, was returned by an earlier
    submission of this manager, and no kill request was sent for it since
    it was last submitted. *)
Theorem kill_requests_target_tracked_jobs
    profile profile_dir n_wanted max_n_queued verbose calls
    before job_id raised after :
  trace (after_calls w calls
           (__init__ w profile profile_dir n_wanted max_n_queued verbose))
    = before ++ EvKill job_id raised :: after ->
  job_id ∈ replay ∅ before /\ job_id > 0 /\ job_id ∈ attempts before.
Proof.
  intros Hsplit.
  destruct (after_calls_replays w profile profile_dir n_wanted max_n_queued
              verbose calls) as [_ Hk].
  pose proof (kills_tracked_split _ _ _ _ _ _ Hk Hsplit) as Hin.
  split; [done|]. apply (proj1 (replay_bounds before ∅)) in Hin.
  apply elem_of_union in Hin as [Hin|Hin]; [set_solver|].
  by apply elem_of_list_to_set, elem_of_successes in Hin.
Qed.

(** X9.  No job is forgotten: every id that a submission of the manager
    returned (when positive) is still in the registry, or a kill request
    was sent for it. *)
Theorem no_job_forgotten profile profile_dir n_wanted max_n_queued verbose calls :
  let st := after_calls w calls
              (__init__ w profile profile_dir n_wanted max_n_queued verbose) in
  list_to_set (successes (trace st)) ⊆ jobs st ∪ list_to_set (kills (trace st)).
Proof.
  cbv zeta.
  destruct (after_calls_replays w profile profile_dir n_wanted max_n_queued
              verbose calls) as [-> _].
  destruct (replay_bounds
              (trace (after_calls w calls
                        (__init__ w profile profile_dir n_wanted max_n_queued
                           verbose))) ∅) as [_ Hlow].
  set_solver.
Qed.

(** X10.  [infinite_poll] returns only from its handler: whenever it has
    returned, a [KeyboardInterrupt] had come out of the loop, the handler
    has drained the registry as it was then, the registry is empty, and
    a kill request has been sent for every job that the manager ever
    submitted successfully, in this call or before it.  (When the
    scheduler query or the writing of the job file raises another
    exception, [infinite_poll] does not return: the exception goes on to
    the caller, and nothing is drained.) *)
Theorem interrupt_kills_all_submitted
    profile profile_dir n_wanted max_n_queued verbose calls interval fuel :
  let st := after_calls w calls
              (__init__ w profile profile_dir n_wanted max_n_queued verbose) in
  let result := infinite_poll w interval fuel st in
  fst result = Return tt ->
  (exists st_int,
     while_true w interval fuel st = (Raise KeyboardInterrupt, st_int) /\
     drained w st_int (snd result)) /\
  jobs (snd result) = ∅ /\
  list_to_set (successes (trace (snd result)))
    ⊆@{gset Z} list_to_set (kills (trace (snd result))).
Proof.
  intros st result Hret.
  pose proof (infinite_poll_cases w interval fuel st) as Hcases.
  cbv zeta in Hcases. fold result in Hcases. rewrite Hret in Hcases.
  destruct Hcases as (st_int & Hloop & _ & Hdrained).
  assert (Hempty : jobs (snd result) = ∅) by apply Hdrained.
  split; [by exists st_int|]. split; [done|].
  destruct (after_calls_replays w profile profile_dir n_wanted max_n_queued
              verbose calls) as [Hj _].
  cbv zeta in Hj. fold st in Hj.
  pose proof (replays_from_init _ _ Hj (infinite_poll_replays w interval fuel st))
    as Hj'.
  fold result in Hj'. rewrite Hempty in Hj'.
  destruct (replay_bounds (trace (snd result)) ∅) as [_ Hlow].
  rewrite <- Hj' in Hlow. set_solver.
Qed.


(** X17.  An interrupt that arrives while the [sbatch] subprocess runs
    never leaves [slurm_submit]: the bare [except] takes the
    [KeyboardInterrupt], [-1] is returned as for a submission that
    failed, and the registry is as it was. *)
Theorem interrupt_during_sbatch_is_swallowed filename st :
  sigint w (trace st) InSbatch = true ->
  exists st',
    slurm_submit w filename st = (Return (-1), st') /\
    new_events st st' = [EvSigint; EvSbatch (_SUBMIT_COMMAND filename) (-1)] /\
    jobs st' = jobs st.
Proof.
  intros Hsig.
  assert (Htry : runs (try_except (sbatch w (_SUBMIT_COMMAND filename))
                         (fun _ => Some (ret (-1)))) st (-1) (jobs st) [EvSigint]).
  { unfold runs, try_except, sbatch, bind, signal.
    rewrite Hsig. unfold raise, ret. by rewrite upd_same. }
  assert (Hrun : runs (slurm_submit w filename) st (-1) (jobs st)
                   ([EvSigint] ++ [EvSbatch (_SUBMIT_COMMAND filename) (-1)])).
  { unfold slurm_submit. cbv zeta.
    eapply runs_bind; [exact Htry|].
    eapply runs_bind_end; [apply runs_emit|]. exact (runs_ret _ _). }
  eexists. split; [exact Hrun|]. by rewrite new_events_upd.
Qed.

End Accounting.

(** When one submission was made and the interrupt arrives during the
    second, [slurm_submit] returns [-1]. *)
Lemma interrupt_during_sbatch_is_swallowed_witness :
  fst (slurm_submit interrupted_in_sbatch "job_idynamic.4242"
         {| self := self demo0; trace := [EvSbatch "sbatch job_idynamic.4242" 7] |})
  = Return (-1).
Proof.
  destruct (interrupt_during_sbatch_is_swallowed interrupted_in_sbatch
              "job_idynamic.4242"
              {| self := self demo0;
                 trace := [EvSbatch "sbatch job_idynamic.4242" 7] |})
    as (st' & Hrun & _).
  - vm_compute. reflexivity.
  - by rewrite Hrun.
Defined.

(** In the concrete run the first kill request, for job 11, is event 25
    of the trace; job 11 was submitted before it. *)
Lemma kill_requests_target_tracked_jobs_witness :
  11 ∈ attempts (take 25 (trace demo3)).
Proof.
  apply (kill_requests_target_tracked_jobs demo_world None None 4 3 0
           [CallPoll; CallPoll; CallPoll]
           (take 25 (trace demo3)) 11 false (drop 26 (trace demo3))).
  vm_compute. reflexivity.
Defined.

(** When the interrupt arrives in the second sleep of the concrete run,
    [infinite_poll] returns with an empty registry. *)
Lemma interrupt_kills_all_submitted_witness :
  jobs (snd (infinite_poll interrupted_in_sleep 30 5 demo0)) = ∅.
Proof.
  apply (interrupt_kills_all_submitted interrupted_in_sleep None None 4 3 0
           [] 30 5).
  vm_compute. reflexivity.
Defined.

(** ** The size of the pool *)

Section PoolSize.

Variable w : World.

Lemma length_successes_le evs : (length (successes evs) <= length (attempts evs))%nat.
Proof. unfold successes. apply length_filter. Qed.

Lemma planned_le nw mq n_running n_queued :
  planned nw mq n_running n_queued <= Z.max 0 (nw - (n_running + n_queued)).
Proof. unfold planned. repeat case_bool_decide; simpl; lia. Qed.

(** The running and the queued list together are no longer than the
    registry. *)
Lemma alive_le_registry slurm_jobs ids (J : gset Z) :
  NoDup ids -> (forall x, x ∈ ids <-> x ∈ J) ->
  (length (taking slurm_jobs Running ids)
   + length (taking slurm_jobs Queued ids) <= size J)%nat.
Proof.
  intros Hnd Hids.
  rewrite <- length_app.
  rewrite <- (size_list_to_set (C := gset Z))
    by (by apply NoDup_taking_app).
  apply subseteq_size. intros x.
  rewrite elem_of_list_to_set, elem_of_app, !elem_of_taking, !Hids.
  tauto.
Qed.

(** After a cycle the registry holds at most the running, the queued and
    the unlisted ids and the successful submissions; when the scheduler
    does not answer it is as it was. *)
Lemma poll_keeps_pool_bound st :
  (forall tr job_id job_state,
     job_table w tr job_id = Some job_state -> job_state ∈ recognised) ->
  Z.of_nat (size (jobs st)) <= Z.max 0 (n_wanted (self st)) ->
  Z.of_nat (size (jobs (snd (poll w st)))) <= Z.max 0 (n_wanted (self st)) /\
  n_wanted (self (snd (poll w st))) = n_wanted (self st).
Proof.
  intros Hrec Hsize.
  destruct (query_answers_or_not w st) as [Hq|Hq].
  - destruct (buckets (job_table w (trace st)) (query_order w st))
      as [[[r q] c] m] eqn:Hb.
    destruct (poll_answered w st r q c m Hq Hb)
      as (evs_kill & out & evs & _ & _ & _ & Hbatch & Hrun).
    unfold ends in Hrun. rewrite Hrun. cbn [snd]. split; [|done].
    unfold jobs at 1. simpl.
    apply batch_outcome_facts in Hbatch as (Hlen & _).
    destruct (buckets_facts _ _ _ _ _ _ Hb) as (-> & -> & -> & ->).
    set (slurm_jobs := job_table w (trace st)) in *.
    set (ids := query_order w st) in *.
    assert (Hids : forall x, x ∈ ids <-> x ∈ jobs st)
      by (intros x; apply elem_of_query_order).
    assert (Hsub : jobs st ∖ list_to_set (taking slurm_jobs Completed ids
                                            ++ taking slurm_jobs Missing ids)
                   ∪ list_to_set (successes evs)
                   ⊆ list_to_set (taking slurm_jobs Running ids
                                    ++ taking slurm_jobs Queued ids
                                    ++ successes evs)).
    { intros x. rewrite elem_of_union, elem_of_difference, !elem_of_list_to_set.
      rewrite !elem_of_app, !elem_of_taking, !Hids.
      assert (Hu : branch (slurm_jobs x) <> Unlisted).
      { destruct (slurm_jobs x) as [job_state|] eqn:Hst; [|done].
        intros Hbr%branch_unlisted. by apply Hbr, (Hrec (trace st) x). }
      destruct (branch (slurm_jobs x)); naive_solver. }
    apply subseteq_size in Hsub.
    pose proof (size_list_to_set_le (taking slurm_jobs Running ids
                  ++ taking slurm_jobs Queued ids ++ successes evs)) as Hle.
    rewrite !length_app in Hle.
    pose proof (length_successes_le evs) as Hs.
    pose proof (planned_le (n_wanted (self st)) (max_n_queued (self st))
                  (len (taking slurm_jobs Running ids))
                  (len (taking slurm_jobs Queued ids))) as Hp.
    pose proof (alive_le_registry slurm_jobs ids (jobs st)
                  (NoDup_query_order w st) Hids) as Halive.
    unfold len in *. lia.
  - destruct (poll_unanswered w st Hq) as (e & evs & Hrun & _).
    unfold ends in Hrun. rewrite Hrun. cbn [snd]. done.
Qed.

(** X11.  When the scheduler only ever reports states that the manager
    recognises, the registry of a fresh manager never holds more than
    [n_wanted] jobs, after any number of cycles. *)
Theorem pool_never_exceeds_n_wanted profile profile_dir nw mq verbose k :
  (forall tr job_id job_state,
     job_table w tr job_id = Some job_state -> job_state ∈ recognised) ->
  Z.of_nat (size (jobs (poll_cycles w k (__init__ w profile profile_dir nw mq verbose))))
    <= Z.max 0 nw.
Proof.
  intros Hrec.
  assert (Hinv : forall st,
            Z.of_nat (size (jobs st)) <= Z.max 0 nw /\ n_wanted (self st) = nw ->
            Z.of_nat (size (jobs (poll_cycles w k st))) <= Z.max 0 nw).
  { induction k as [|k IH]; intros st [Hsize Hnw]; [done|].
    unfold poll_cycles. simpl. apply IH.
    destruct (poll_keeps_pool_bound st Hrec) as [Hsize' Hnw'];
      rewrite Hnw in *; done. }
  apply Hinv. split; [|done].
  change (Z.of_nat (size (∅ : gset Z)) <= Z.max 0 nw).
  rewrite size_empty. lia.
Qed.

(** X12.  A cycle at capacity changes nothing: when every tracked job is
    reported as running, suspended or pending and at least [n_wanted]
    jobs are tracked, [poll] sends no kill request, attempts no
    submission and leaves the registry as it is; it returns when the
    scheduler answers, and raises what the query raised when not. *)
Theorem poll_steady_state st :
  (forall job_id, job_id ∈ jobs st ->
     exists job_state, job_table w (trace st) job_id = Some job_state /\
                       job_state ∈ [JobState.RUNNING; JobState.SUSPENDED;
                                    JobState.PENDING]) ->
  n_wanted (self st) <= Z.of_nat (size (jobs st)) ->
  (query_answers w st ->
   exists st',
     poll w st = (Return tt, st') /\
     jobs st' = jobs st /\
     kills (new_events st st') = [] /\
     attempts (new_events st st') = []) /\
  (~ query_answers w st ->
   exists e st',
     poll w st = (Raise e, st') /\
     (e = SlurmError \/ e = KeyboardInterrupt) /\
     jobs st' = jobs st /\
     kills (new_events st st') = [] /\
     attempts (new_events st st') = []).
Proof.
  intros Halive Hfull. split; [intros Hq|].
  2: { intros Hq. destruct (poll_idle w st Hq) as (e & st' & ? & ? & ? & ? & ?).
       by exists e, st'. }
  destruct (poll_summary w st Hq)
    as (r & q & c & m & st1 & out & st' & evs_pre & evs_top & _ & Hb & Hpoll
        & Hev & _ & _ & Hk0 & Hatt0 & _ & Hk & Hbatch & Hjobs).
  symmetry in Hb. destruct (buckets_facts _ _ _ _ _ _ Hb) as (-> & -> & -> & ->).
  set (slurm_jobs := job_table w (trace st)) in *.
  set (ids := query_order w st) in *.
  assert (Hids : forall x, x ∈ ids <-> x ∈ jobs st)
    by (intros x; apply elem_of_query_order).
  assert (Hbranch : forall x, x ∈ ids ->
            branch (slurm_jobs x) = Running \/ branch (slurm_jobs x) = Queued).
  { intros x Hx%Hids. destruct (Halive x Hx) as (tok & -> & Htok).
    apply list_elem_of_In in Htok. simpl in Htok.
    destruct Htok as [<-|[<-|[<-|[]]]]; auto. }
  assert (Hc : taking slurm_jobs Completed ids = []).
  { apply elem_of_nil_inv. intros x [Hx Hin]%elem_of_taking.
    destruct (Hbranch x Hin); congruence. }
  assert (Hm : taking slurm_jobs Missing ids = []).
  { apply elem_of_nil_inv. intros x [Hx Hin]%elem_of_taking.
    destruct (Hbranch x Hin); congruence. }
  assert (Hsize : (size (jobs st) <= length (taking slurm_jobs Running ids)
                                     + length (taking slurm_jobs Queued ids))%nat).
  { rewrite <- length_app.
    rewrite <- (size_list_to_set (C := gset Z))
      by (apply NoDup_taking_app; [done|apply NoDup_query_order]).
    apply subseteq_size. intros x Hx.
    rewrite elem_of_list_to_set, elem_of_app, !elem_of_taking.
    apply Hids in Hx. destruct (Hbranch x Hx); tauto. }
  assert (Hplan : planned (n_wanted (self st)) (max_n_queued (self st))
                    (len (taking slurm_jobs Running ids))
                    (len (taking slurm_jobs Queued ids)) = 0).
  { unfold planned. rewrite bool_decide_eq_false_2; [done|]. unfold len. lia. }
  rewrite Hplan in Hbatch.
  destruct out as [[]|e|]; simpl in Hbatch; [|lia|done].
  destruct Hbatch as [Hlen _]. apply nil_length_inv in Hlen.
  exists st'. split; [done|]. rewrite Hev, kills_app, attempts_app.
  rewrite Hk0, Hk, Hatt0, Hlen, Hc, Hm. repeat split; try done.
  rewrite Hjobs, Hc, Hm. unfold successes. rewrite Hlen. set_solver.
Qed.

End PoolSize.

Lemma two_queued_recognised (tr : list Event) job_id job_state :
  job_table (scenario_world two_queued 99) tr job_id = Some job_state ->
  job_state ∈ recognised.
Proof.
  simpl. unfold two_queued. case_decide; [|done]. intros [= <-].
  apply (bool_decide_unpack _). vm_compute. exact I.
Qed.

(** Of 2 jobs wanted, at most 2 are tracked after three cycles. *)
Lemma pool_never_exceeds_n_wanted_witness :
  Z.of_nat (size (jobs (poll_cycles (scenario_world two_queued 99) 3
                          (__init__ (scenario_world two_queued 99)
                             None None 2 5 0)))) <= 2.
Proof.
  apply (pool_never_exceeds_n_wanted (scenario_world two_queued 99)
           None None 2 5 0 3).
  apply two_queued_recognised.
Defined.

(** With jobs 1 and 2 running, job 3 queued and 3 jobs wanted, a cycle
    leaves the registry as it is. *)
Lemma poll_steady_state_witness :
  exists st',
    poll (scenario_world two_running_one_queued 99)
         (scenario_state 3 5 {[1; 2; 3]}) = (Return tt, st') /\
    jobs st' = {[1; 2; 3]}.
Proof.
  destruct (poll_steady_state (scenario_world two_running_one_queued 99)
              (scenario_state 3 5 {[1; 2; 3]})) as [Hcycle _];
    [| |destruct (Hcycle (scenario_world_answers _ _ _))
          as (st' & Hpoll & Hjobs & _)].
  - intros job_id Hin. unfold jobs in Hin. simpl in Hin.
    apply elem_of_union in Hin as [Hin|Hin];
      [apply elem_of_union in Hin as [Hin|Hin]|];
      apply elem_of_singleton in Hin; subst job_id;
      eexists; (split; [reflexivity|]);
      apply (bool_decide_unpack _); vm_compute; exact I.
  - vm_compute. discriminate.
  - exists st'. split; [exact Hpoll|exact Hjobs].
Defined.

(** ** The program as a whole *)

Section Main.

Variable w : World.




End Main.

(** With [--n 0] the program exits with status 1, after the line about
    the wanted size. *)
Lemma main_rejects_sizes_witness :
  main demo_world
    {| flag_profile := None; flag_profile_dir := None;
       flag_n := Some 0; flag_q := None |} 5 = MainExit 1 [ErrorNWanted].
Proof.
  apply (main_rejects_sizes demo_world
           {| flag_profile := None; flag_profile_dir := None;
              flag_n := Some 0; flag_q := None |} 5).
  left. vm_compute. discriminate.
Defined.


(** ** What a manager may do *)

Section Vocabulary.

Variable w : World.
Variable st0 : State.

Lemma emits_quiet {A} (m : M A) :
  (forall st, exists J, snd (m st) = upd st J []) -> emits_from st0 m.
Proof.
  intros Hm J evs. destruct (Hm (upd st0 J evs)) as [J' ->].
  exists J', []. by rewrite upd_upd.
Qed.

Lemma emits_ret {A} (a : A) : emits_from st0 (ret a).
Proof. apply emits_quiet. intros st. exists (jobs st). by rewrite upd_id. Qed.

Lemma emits_raise {A} e : emits_from st0 (raise (A := A) e).
Proof. apply emits_quiet. intros st. exists (jobs st). by rewrite upd_id. Qed.

Lemma emits_unfinished {A} : emits_from st0 (unfinished (A := A)).
Proof. apply emits_quiet. intros st. exists (jobs st). by rewrite upd_id. Qed.

Lemma emits_iterate : emits_from st0 (iterate w).
Proof. apply emits_quiet. intros st. exists (jobs st). by rewrite upd_id. Qed.

Lemma emits_set_add x : emits_from st0 (set_add x).
Proof.
  apply emits_quiet. intros st. eexists.
  pose proof (runs_set_add x st) as Hrun. unfold runs in Hrun. by rewrite Hrun.
Qed.

Lemma emits_set_remove x : emits_from st0 (set_remove x).
Proof.
  apply emits_quiet. intros st. destruct (decide (x ∈ jobs st)) as [Hx|Hx].
  - eexists. pose proof (runs_set_remove x st Hx) as Hrun.
    unfold runs in Hrun. by rewrite Hrun.
  - exists (jobs st). by rewrite set_remove_absent, upd_id.
Qed.

(** A step that, whatever it returns or raises, leaves the registry as
    it is and adds events that the manager may emit. *)
Lemma emits_events {A} (m : M A) :
  (forall st, exists evs,
     snd (m st) = upd st (jobs st) evs /\
     (forall e, e ∈ evs -> may_emit (self st0) e)) ->
  emits_from st0 m.
Proof.
  intros Hm J evs. destruct (Hm (upd st0 J evs)) as (evs' & -> & Hev).
  exists J, evs'. rewrite upd_upd. split; [done|]. by apply Forall_forall.
Qed.

Lemma emits_emit e : may_emit (self st0) e -> emits_from st0 (emit e).
Proof.
  intros He. apply emits_events. intros st. exists [e].
  pose proof (runs_emit e st) as Hrun. unfold runs in Hrun. rewrite Hrun.
  split; [done|]. by intros e' ->%list_elem_of_singleton.
Qed.

Lemma emits_signal call : emits_from st0 (signal w call).
Proof.
  apply emits_events. intros st.
  pose proof (runs_signal w call st) as Hrun. unfold runs in Hrun. rewrite Hrun.
  eexists. split; [reflexivity|].
  destruct (sigint w (trace st) call); intros e He.
  - apply list_elem_of_singleton in He as ->. constructor.
  - by apply elem_of_nil in He.
Qed.

Lemma emits_bind {A B} (m : M A) (k : A -> M B) :
  emits_from st0 m -> (forall a, emits_from st0 (k a)) ->
  emits_from st0 (bind m k).
Proof.
  intros Hm Hk J evs. destruct (Hm J evs) as (J1 & evs1 & Hst1 & Hev1).
  unfold bind.
  destruct (m (upd st0 J evs)) as [[a|e|] st1]; simpl in Hst1; subst st1.
  - destruct (Hk a J1 (evs ++ evs1)) as (J2 & evs2 & Hst2 & Hev2).
    exists J2, (evs1 ++ evs2). rewrite Hst2, app_assoc.
    split; [done|by apply Forall_app].
  - by exists J1, evs1.
  - by exists J1, evs1.
Qed.

Lemma emits_bind_self {B} (k : Manager -> M B) :
  (forall J, emits_from st0 (k (with_jobs J (self st0)))) ->
  emits_from st0 (bind get_self k).
Proof. intros Hk J evs. exact (Hk J J evs). Qed.

Lemma emits_try {A} (body : M A) handler :
  emits_from st0 body ->
  (forall e h, handler e = Some h -> emits_from st0 h) ->
  emits_from st0 (try_except body handler).
Proof.
  intros Hm Hh J evs. destruct (Hm J evs) as (J1 & evs1 & Hst1 & Hev1).
  unfold try_except.
  destruct (body (upd st0 J evs)) as [[a|e|] st1]; simpl in Hst1; subst st1.
  - by exists J1, evs1.
  - destruct (handler e) as [h|] eqn:He; [|by exists J1, evs1].
    destruct (Hh e h He J1 (evs ++ evs1)) as (J2 & evs2 & Hst2 & Hev2).
    exists J2, (evs1 ++ evs2). rewrite Hst2, app_assoc.
    split; [done|by apply Forall_app].
  - by exists J1, evs1.
Qed.

Lemma emits_for {A} (xs : list A) body :
  (forall x, emits_from st0 (body x)) -> emits_from st0 (for_ xs body).
Proof.
  intros Hbody. induction xs as [|x xs IH]; [apply emits_ret|].
  simpl. apply emits_bind; [apply Hbody|done].
Qed.

Lemma emits_for_acc {A B} (xs : list A) (body : B -> A -> M B) : forall acc,
  (forall acc x, emits_from st0 (body acc x)) ->
  emits_from st0 (for_acc xs acc body).
Proof.
  intros acc Hbody. revert acc. induction xs as [|x xs IH]; intros acc;
    [apply emits_ret|].
  simpl. apply emits_bind; [apply Hbody|intros acc'; apply IH].
Qed.

Lemma emits_when (c : bool) m :
  (c = true -> emits_from st0 m) -> emits_from st0 (when c m).
Proof. intros Hm. destruct c; [by apply Hm|apply emits_ret]. Qed.

Lemma emits_log line :
  may_emit (self st0) (EvLog line) -> emits_from st0 (log line).
Proof. apply emits_emit. Qed.

Lemma emits_write_file :
  emits_from st0
    (_write_job_description_file w (job_description (self st0))
       (job_filename (self st0))).
Proof.
  unfold _write_job_description_file.
  apply emits_bind; [apply emits_signal|intros interrupted].
  destruct interrupted.
  - apply emits_bind; [apply emits_emit; constructor|intros _; apply emits_raise].
  - apply emits_events. intros st.
    destruct (write_raises w (trace st) (job_filename (self st0)));
      rewrite upd_same; eexists; (split; [reflexivity|]);
      intros e ->%list_elem_of_singleton; constructor.
Qed.

Lemma emits_slurm_submit :
  emits_from st0 (slurm_submit w (job_filename (self st0))).
Proof.
  unfold slurm_submit. cbv zeta. apply emits_bind.
  - apply emits_try; [|intros e h [= <-]; apply emits_ret].
    unfold sbatch. apply emits_bind; [apply emits_signal|intros interrupted].
    destruct interrupted; [apply emits_raise|].
    apply emits_quiet. intros st. exists (jobs st).
    destruct (sbatch_output w (trace st) _); by rewrite upd_id.
  - intros job_id.
    apply emits_bind; [apply emits_emit; constructor|intros _; apply emits_ret].
Qed.

Lemma emits_submit_job : emits_from st0 (submit_job w).
Proof.
  unfold submit_job. apply emits_bind_self. intros J. cbv zeta.
  apply emits_bind; [exact emits_write_file|intros _].
  apply emits_bind; [exact emits_slurm_submit|intros job_id].
  apply emits_bind; [|intros _; apply emits_ret].
  apply emits_when. intros _. apply emits_set_add.
Qed.

Lemma emits_kill_job job_id : emits_from st0 (kill_job w job_id).
Proof.
  unfold kill_job. apply emits_bind; [apply emits_set_remove|intros _].
  apply emits_bind; [|intros; apply emits_ret].
  apply emits_try; [|intros e h [= <-]; apply emits_ret].
  apply emits_bind; [|intros; apply emits_ret].
  unfold slurm_kill_job.
  apply emits_bind; [apply emits_signal|intros interrupted].
  destruct interrupted.
  - apply emits_bind; [apply emits_emit; constructor|intros _; apply emits_raise].
  - apply emits_events. intros st.
    exists [EvKill job_id (pyslurm_kill_raises w (trace st) job_id)].
    split; [|intros e ->%list_elem_of_singleton; constructor].
    cbv zeta. rewrite upd_same.
    by destruct (pyslurm_kill_raises w (trace st) job_id).
Qed.

Lemma emits_pyslurm_job : emits_from st0 (pyslurm_job w).
Proof.
  unfold pyslurm_job.
  apply emits_bind; [apply emits_signal|intros interrupted].
  destruct interrupted.
  - apply emits_bind; [apply emits_emit; constructor|intros _; apply emits_raise].
  - apply emits_events. intros st.
    destruct (pyslurm_job_raises w (trace st));
      rewrite upd_same; eexists; (split; [reflexivity|]);
      intros e ->%list_elem_of_singleton; constructor.
Qed.

Lemma emits_sort_job slurm_jobs lists job_id :
  emits_from st0 (sort_job slurm_jobs lists job_id).
Proof.
  destruct lists as [[[r q] c] m]. unfold sort_job, find_id.
  apply emits_bind.
  { destruct (unreadable slurm_jobs job_id); [|apply emits_ret].
    apply emits_bind; [apply emits_emit; constructor|intros _; apply emits_raise]. }
  intros [job_state|]; [|apply emits_ret].
  repeat case_decide; try apply emits_ret.
  apply emits_bind; [apply emits_log; constructor|intros; apply emits_ret].
Qed.

Lemma emits_get_submitted_job_info : emits_from st0 (get_submitted_job_info w).
Proof.
  unfold get_submitted_job_info.
  apply emits_bind; [apply emits_pyslurm_job|intros slurm_jobs].
  apply emits_bind; [apply emits_iterate|intros ids].
  apply emits_for_acc. intros lists job_id. apply emits_sort_job.
Qed.

Lemma emits_submit_one n_submit i : emits_from st0 (submit_one w n_submit i).
Proof.
  unfold submit_one. apply emits_bind; [apply emits_submit_job|].
  intros job_id. case_bool_decide; apply emits_log; constructor.
Qed.

Lemma emits_poll : emits_from st0 (poll w).
Proof.
  unfold poll. apply emits_bind; [apply emits_get_submitted_job_info|].
  intros [[[r q] c] m]. cbv zeta.
  apply emits_bind.
  { apply emits_for. intros job_id.
    apply emits_bind; [apply emits_kill_job|intros; apply emits_ret]. }
  intros _. apply emits_bind; [apply emits_when; intros _; apply emits_log; constructor|].
  intros _. apply emits_bind; [apply emits_when; intros _; apply emits_log; constructor|].
  intros _. apply emits_bind_self. intros J. cbn [n_wanted max_n_queued verbose with_jobs].
  destruct (bool_decide (len r + len q < n_wanted (self st0)));
    destruct (bool_decide (len q < max_n_queued (self st0))); cbn [andb].
  - apply emits_bind; [apply emits_log; constructor|intros _].
    apply emits_for. intros i. apply emits_submit_one.
  - apply emits_when. intros Hv%bool_decide_eq_true. by apply emits_log, emit_status.
  - apply emits_when. intros Hv%bool_decide_eq_true. by apply emits_log, emit_status.
  - apply emits_when. intros Hv%bool_decide_eq_true. by apply emits_log, emit_status.
Qed.

Lemma emits_sleep interval : emits_from st0 (sleep w interval).
Proof.
  unfold sleep. apply emits_bind; [apply emits_signal|intros interrupted].
  apply emits_bind; [apply emits_emit; constructor|intros _].
  destruct interrupted; [apply emits_raise|apply emits_ret].
Qed.

Lemma emits_while_true interval fuel : emits_from st0 (while_true w interval fuel).
Proof.
  induction fuel as [|fuel IH]; simpl; [apply emits_unfinished|].
  apply emits_bind; [apply emits_poll|intros _].
  apply emits_bind; [apply emits_sleep|done].
Qed.

Lemma emits_on_interrupt : emits_from st0 (on_interrupt w).
Proof.
  unfold on_interrupt. apply emits_bind; [apply emits_iterate|intros ids].
  cbv zeta.
  apply emits_bind; [apply emits_log; constructor|intros _].
  case_bool_decide; [|apply emits_log; constructor].
  apply emits_bind; [apply emits_log; constructor|intros _].
  apply emits_for. intros job_id.
  apply emits_bind; [apply emits_kill_job|intros; apply emits_ret].
Qed.

Lemma emits_call c : emits_from st0 (call w c).
Proof.
  destruct c as [| |job_id| |interval fuel]; simpl.
  - apply emits_poll.
  - apply emits_bind; [apply emits_submit_job|intros; apply emits_ret].
  - apply emits_bind; [apply emits_kill_job|intros; apply emits_ret].
  - apply emits_bind; [apply emits_get_submitted_job_info|intros; apply emits_ret].
  - unfold infinite_poll. apply emits_try; [apply emits_while_true|].
    intros [] h [= <-]. apply emits_on_interrupt.
Qed.

Lemma emits_after_calls calls : forall J evs,
  exists J' evs',
    after_calls w calls (upd st0 J evs) = upd st0 J' (evs ++ evs') /\
    Forall (may_emit (self st0)) evs'.
Proof.
  induction calls as [|c calls IH]; intros J evs.
  - exists J, []. by rewrite app_nil_r.
  - simpl. destruct (emits_call c J evs) as (J1 & evs1 & -> & Hev1).
    destruct (IH J1 (evs ++ evs1)) as (J2 & evs2 & -> & Hev2).
    exists J2, (evs1 ++ evs2). rewrite app_assoc.
    split; [done|by apply Forall_app].
Qed.

End Vocabulary.

Section NeverDone.

Variable w : World.

(** X14.  No method of the manager ever logs the WAIT status line of
    [poll]: its branch cannot be reached, since the test that guards it
    repeats a test that has just succeeded.  And a manager of verbosity
    below 2, as [main] creates it, never logs the plain status line. *)
Theorem wait_line_never_logged st c :
  Forall (fun e =>
            (forall n_running n_queued n_wanted max_n_queued,
               e ≠ EvLog (LogWait n_running n_queued n_wanted max_n_queued)) /\
            (verbose (self st) < 2 ->
             forall n_running n_queued n_wanted,
               e ≠ EvLog (LogStatus n_running n_queued n_wanted)))
         (new_events st (snd (call w c st))).
Proof.
  destruct (emits_call w st c (jobs st) []) as (J & evs & Hst & Hev).
  rewrite upd_id in Hst. rewrite Hst, new_events_upd. simpl.
  eapply Forall_impl; [exact Hev|].
  intros e He. split.
  - intros a b n q ->. inversion He.
  - intros Hv a b n ->. inversion He. lia.
Qed.

(** X15.  Whatever methods are called on a manager after its creation,
    every job file it writes has the same name, [job_idynamic.] followed
    by the process group id, and the same text, and every [sbatch]
    command it runs submits that file. *)
Theorem job_file_is_fixed profile profile_dir nw mq verbose calls :
  let st0 := __init__ w profile profile_dir nw mq verbose in
  Forall (fun e =>
            match e with
            | EvWriteFile filename description =>
                filename = "job_idynamic." +:+ pretty (os_getpgid w) /\
                description = job_description (self st0)
            | EvSbatch slurm_command _ =>
                slurm_command = "sbatch job_idynamic." +:+ pretty (os_getpgid w)
            | _ => True
            end)
         (trace (after_calls w calls st0)).
Proof.
  intros st0.
  destruct (emits_after_calls w st0 calls (jobs st0) []) as (J & evs & Hst & Hev).
  rewrite upd_id in Hst. rewrite Hst. simpl.
  eapply Forall_impl; [exact Hev|].
  intros e He. by destruct He.
Qed.

End NeverDone.
